(** * The daily production scheduler of the laser workshop planner

    A shallow embedding of [scheduleData] and [aggregatedOverflow]
    (src/App.js, component [ScheduleView]) together with the small part of
    the JavaScript value semantics those two computations rely on.

    Numbers.  A JavaScript Number is modelled as an exact rational extended
    with [NaN] and the two infinities.  The rounding of binary64 arithmetic,
    overflow to an infinity on very large literals and the sign of zero are
    not represented; every comparison and every special value the scheduler
    can observe ([NaN] from [parseFloat], [Infinity] as the initial earliest
    finish time) is.  Where the value of a sum matters (the scheduled and
    the missed profit, the time a machine is busy) the terms are added in
    the order in which the code adds them and no law of exact addition is
    used; module [Binary64] repeats the allocation loop over IEEE 754
    binary64 numbers, where the order of the terms shows.

    Objects used as dictionaries.  [machineTimelines] is a finite map keyed
    by strings; names inherited from [Object.prototype] are not modelled
    there (a lookup of such a name yields a value without a numeric
    [currentTime], whose candidate finish time is [NaN] and is never
    selected), nor is a machine named [__proto__].  The object of the
    overflow counts is modelled with the names it inherits.

    Catalog fields.  [buildTime], [price] and [cost] are stored as the item
    form delivers them, the text of a numeric input field, and are read
    back from storage as whatever was saved; they are modelled as values
    that may be absent, numbers or strings, with [parseFloat] and the
    implicit conversion to a number written out on strings. *)

From Stdlib Require Import Ascii String QArith Qcanon Qround.
From Stdlib Require PrimFloat.
From stdpp Require Import base numbers strings list sorting gmap fin_maps pretty.

Local Open Scope string_scope.
Local Open Scope list_scope.

(** ** JavaScript numbers *)

Module Number.

Inductive number : Type :=
| NaN
| Inf (negative : bool)
| Fin (q : Qc).

#[global] Instance number_eq_dec : EqDecision number.
Proof. solve_decision. Defined.

Definition of_Z (z : Z) : number := Fin (Q2Qc (inject_Z z)).
Definition zero : number := of_Z 0.
Definition ratio (n : Z) (d : positive) : number := Fin (Q2Qc (n # d)).

Definition Qc_negative (q : Qc) : bool := bool_decide (q < 0)%Qc.
Definition Qc_is_zero (q : Qc) : bool := bool_decide (q = 0%Qc).

(** [x + y] *)
Definition add (x y : number) : number :=
  match x, y with
  | NaN, _ | _, NaN => NaN
  | Inf s, Inf s' => if Bool.eqb s s' then Inf s else NaN
  | Inf s, Fin _ | Fin _, Inf s => Inf s
  | Fin a, Fin b => Fin (a + b)
  end.

Definition opp (x : number) : number :=
  match x with
  | NaN => NaN
  | Inf s => Inf (negb s)
  | Fin a => Fin (- a)
  end.

(** [x - y] *)
Definition sub (x y : number) : number := add x (opp y).

(** [x * y] *)
Definition mul (x y : number) : number :=
  match x, y with
  | NaN, _ | _, NaN => NaN
  | Inf s, Inf s' => Inf (xorb s s')
  | Inf s, Fin q | Fin q, Inf s =>
      if Qc_is_zero q then NaN else Inf (xorb s (Qc_negative q))
  | Fin a, Fin b => Fin (a * b)
  end.

(** [x / y]; a zero divisor is taken to be [+0]. *)
Definition div (x y : number) : number :=
  match x, y with
  | NaN, _ | _, NaN => NaN
  | Inf _, Inf _ => NaN
  | Inf s, Fin q => Inf (xorb s (Qc_negative q))
  | Fin _, Inf _ => Fin 0
  | Fin a, Fin b =>
      if Qc_is_zero b
      then (if Qc_is_zero a then NaN else Inf (Qc_negative a))
      else Fin (a / b)
  end.

(** Numeric comparison; [None] when an operand is [NaN]. *)
Definition cmp (x y : number) : option comparison :=
  match x, y with
  | NaN, _ | _, NaN => None
  | Inf s, Inf s' =>
      Some (if s then (if s' then Eq else Lt) else (if s' then Gt else Eq))
  | Inf s, Fin _ => Some (if s then Lt else Gt)
  | Fin _, Inf s => Some (if s then Gt else Lt)
  | Fin a, Fin b => Some (a ?= b)%Qc
  end.

(** [x < y] and [x <= y] *)
Definition ltb (x y : number) : bool :=
  match cmp x y with Some Lt => true | _ => false end.
Definition leb (x y : number) : bool :=
  match cmp x y with Some Lt | Some Eq => true | _ => false end.

(** ToBoolean on a Number: [NaN] and zero are falsy. *)
Definition truthy (x : number) : bool :=
  match x with
  | NaN => false
  | Inf _ => true
  | Fin q => negb (Qc_is_zero q)
  end.

End Number.

Export Number.

(** ** JavaScript values and the string-to-number conversions *)

Module JS.

(** The values the persisted records can hold in a numeric field. *)
Inductive jsval : Type :=
| JUndefined
| JNull
| JNum (x : number)
| JStr (s : string).

(** White space and line terminators of the ASCII range. *)
Definition is_ws (c : ascii) : bool :=
  let n := nat_of_ascii c in
  (n =? 9)%nat || (n =? 10)%nat || (n =? 11)%nat || (n =? 12)%nat
  || (n =? 13)%nat || (n =? 32)%nat.

Fixpoint skip_ws (s : string) : string :=
  match s with
  | String c r => if is_ws c then skip_ws r else s
  | EmptyString => s
  end.

(** Value of a digit in the given radix, letters in either case. *)
Definition digit_value (radix : N) (c : ascii) : option N :=
  let n := N_of_ascii c in
  let v :=
    if (48 <=? n)%N && (n <=? 57)%N then Some (n - 48)%N
    else if (97 <=? n)%N && (n <=? 122)%N then Some (n - 87)%N
    else if (65 <=? n)%N && (n <=? 90)%N then Some (n - 55)%N
    else None in
  match v with
  | Some d => if (d <? radix)%N then Some d else None
  | None => None
  end.

(** The longest run of digits at the head of [s]: its value, its length
    and the rest of the string. *)
Fixpoint read_digits (radix : N) (s : string) (acc : N) (count : nat)
  : N * nat * string :=
  match s with
  | String c r =>
      match digit_value radix c with
      | Some d => read_digits radix r (acc * radix + d)%N (S count)
      | None => (acc, count, s)
      end
  | EmptyString => (acc, count, s)
  end.

Definition read_sign (s : string) : bool * string :=
  match s with
  | String "-" r => (true, r)
  | String "+" r => (false, r)
  | _ => (false, s)
  end.

Definition strip_prefix (p s : string) : option string :=
  if String.prefix p s
  then Some (String.substring (String.length p)
               (String.length s - String.length p) s)
  else None.

(** The optional exponent part: consumed only when a digit follows. *)
Definition read_exponent (s : string) : Z * string :=
  match s with
  | String c r =>
      if (Ascii.eqb c "e" || Ascii.eqb c "E")%bool then
        let '(neg, r1) := read_sign r in
        let '(e, n, r2) := read_digits 10 r1 0%N 0%nat in
        match n with
        | O => (0%Z, s)
        | S _ => ((if neg then - Z.of_N e else Z.of_N e)%Z, r2)
        end
      else (0%Z, s)
  | EmptyString => (0%Z, s)
  end.

Definition scale (mantissa : N) (exponent : Z) : Qc :=
  Q2Qc (inject_Z (Z.of_N mantissa) * Qpower (10 # 1) exponent).

(** The longest prefix that is an unsigned decimal literal
    ([Infinity], [12], [12.], [12.5], [.5], each with an optional
    exponent), as a magnitude. *)
Definition read_unsigned_decimal (s : string) : option (number * string) :=
  match strip_prefix "Infinity" s with
  | Some r => Some (Inf false, r)
  | None =>
      let '(ip, ni, r1) := read_digits 10 s 0%N 0%nat in
      let '(m, nf, r2) :=
        match r1 with
        | String "." r =>
            let '(m', nf', r') := read_digits 10 r ip 0%nat in
            match ni, nf' with
            | O, O => (ip, 0%nat, r1)
            | _, _ => (m', nf', r')
            end
        | _ => (ip, 0%nat, r1)
        end in
      match ni, nf with
      | O, O => None
      | _, _ =>
          let '(e, r3) := read_exponent r2 in
          Some (Fin (scale m (e - Z.of_nat nf)), r3)
      end
  end.

Definition read_decimal (s : string) : option (number * string) :=
  let '(neg, r) := read_sign s in
  match read_unsigned_decimal r with
  | Some (x, r') => Some (if neg then opp x else x, r')
  | None => None
  end.

(** [parseFloat] on a string: leading white space is skipped, the longest
    decimal prefix is converted, anything after it is ignored. *)
Definition parseFloat_string (s : string) : number :=
  match read_decimal (skip_ws s) with
  | Some (x, _) => x
  | None => NaN
  end.

(** [0x], [0o] and [0b] integer literals (no sign). *)
Definition read_radix_literal (s : string) : option (option (N * string)) :=
  match s with
  | String "0" (String c r) =>
      let radix :=
        if (Ascii.eqb c "x" || Ascii.eqb c "X")%bool then Some 16%N
        else if (Ascii.eqb c "o" || Ascii.eqb c "O")%bool then Some 8%N
        else if (Ascii.eqb c "b" || Ascii.eqb c "B")%bool then Some 2%N
        else None in
      match radix with
      | Some b =>
          let '(v, n, r') := read_digits b r 0%N 0%nat in
          Some (match n with O => None | S _ => Some (v, r') end)
      | None => None
      end
  | _ => None
  end.

(** ToNumber on a string: the whole string, white space trimmed, must be a
    numeric literal; the empty string is [0]. *)
Definition StringToNumber (s : string) : number :=
  let t := skip_ws s in
  match t with
  | EmptyString => zero
  | _ =>
      match read_radix_literal t with
      | Some (Some (v, r)) =>
          match skip_ws r with
          | EmptyString => of_Z (Z.of_N v)
          | _ => NaN
          end
      | Some None => NaN
      | None =>
          match read_decimal t with
          | Some (x, r) =>
              match skip_ws r with EmptyString => x | _ => NaN end
          | None => NaN
          end
      end
  end.

(** ToBoolean *)
Definition ToBoolean (v : jsval) : bool :=
  match v with
  | JUndefined | JNull => false
  | JNum x => truthy x
  | JStr s => negb (String.eqb s "")
  end.

(** ToNumber *)
Definition ToNumber (v : jsval) : number :=
  match v with
  | JUndefined => NaN
  | JNull => zero
  | JNum x => x
  | JStr s => StringToNumber s
  end.

(** [parseFloat(v)]: the argument is first converted to a string.  A
    Number prints as a decimal literal that reads back as itself;
    [undefined] and [null] print as words, which do not parse. *)
Definition parseFloat (v : jsval) : number :=
  match v with
  | JUndefined | JNull => NaN
  | JNum x => x
  | JStr s => parseFloat_string s
  end.

(** [x || d] on Numbers *)
Definition num_or (x d : number) : number := if truthy x then x else d.

(** [v || d] on values *)
Definition val_or (v d : jsval) : jsval := if ToBoolean v then v else d.

End JS.

Export JS.

(** ** Data model *)

Module Item.
Record t : Type := mk {
  id : string;
  name : string;
  buildTime : jsval;
  price : jsval;
  cost : jsval;
  allowedMachines : option (list string);
}.
End Item.

Module Machine.
Record t : Type := mk { id : string; name : string }.
End Machine.

(** [quantity] is written by the planner as [parseInt] of a positive count,
    and [Array(quantity)] builds that many slots; the length limit of a
    JavaScript array is not modelled. *)
Module Order.
Record t : Type := mk {
  id : string;
  itemId : string;
  itemName : string;
  quantity : nat;
}.
End Order.

Module Settings.
Record t : Type := mk { workHours : jsval; workdayStartHour : jsval }.
End Settings.

Module Task.
Record t : Type := mk {
  id : string;
  name : string;
  buildTime : number;
  profit : number;
  profitPerMinute : number;
  allowedMachines : list string;
}.
End Task.

(** [{ ...task, startTime, endTime }] *)
Record placed : Type := mkPlaced {
  placed_task : Task.t;
  startTime : number;
  endTime : number;
}.

(** [{ tasks: [], currentTime: 0 }] *)
Record timeline : Type := mkTimeline {
  tasks : list placed;
  currentTime : number;
}.

(** [{ schedule: machineTimelines, totalProfit, overflowTasks }] *)
Record result : Type := mkResult {
  schedule : gmap string timeline;
  totalProfit : number;
  overflowTasks : list Task.t;
}.

#[global] Instance jsval_eq_dec : EqDecision jsval.
Proof. solve_decision. Defined.
#[global] Instance task_eq_dec : EqDecision Task.t.
Proof. solve_decision. Defined.
#[global] Instance placed_eq_dec : EqDecision placed.
Proof. solve_decision. Defined.
#[global] Instance timeline_eq_dec : EqDecision timeline.
Proof. solve_decision. Defined.
#[global] Instance result_eq_dec : EqDecision result.
Proof. solve_decision. Defined.

(** ** Task expander *)

(** The identity of the [i]-th unit of an order: [`${order.itemId}-${i}`]. *)
Definition task_id (order : Order.t) (i : nat) : string :=
  Order.itemId order +:+ "-" +:+ pretty i.

(** [items.find(i => i.id === order.itemId)] *)
Definition find_item (items : list Item.t) (itemId : string) : option Item.t :=
  List.find (fun i => String.eqb (Item.id i) itemId) items.

(** The callback of [scheduleOrders.flatMap]. *)
Definition expand_order (items : list Item.t) (order : Order.t) : list Task.t :=
  match find_item items (Order.itemId order) with
  | None => []
  | Some itemDetails =>
      if negb (ToBoolean (Item.buildTime itemDetails))
         || leb (ToNumber (Item.buildTime itemDetails)) zero
      then []
      else
        let profit :=
          sub (num_or (parseFloat (Item.price itemDetails)) zero)
              (num_or (parseFloat (Item.cost itemDetails)) zero) in
        let profitPerMinute :=
          div profit (parseFloat (Item.buildTime itemDetails)) in
        map (fun i =>
               {| Task.id := task_id order i;
                  Task.name := Order.itemName order;
                  Task.buildTime := parseFloat (Item.buildTime itemDetails);
                  Task.profit := profit;
                  Task.profitPerMinute := profitPerMinute;
                  Task.allowedMachines :=
                    default [] (Item.allowedMachines itemDetails) |})
            (seq 0 (Order.quantity order))
  end.

Definition allTasks (scheduleOrders : list Order.t) (items : list Item.t)
  : list Task.t :=
  flat_map (expand_order items) scheduleOrders.

(** ** Profit ranker *)

(** [Array.prototype.sort] is a stable sort driven by the sign of the
    comparator, a [NaN] result counting as zero.  It is rendered as a stable
    insertion sort: an element moves behind exactly those elements that the
    comparator places strictly before it. *)
Section Sort.
Context {A : Type} (comparefn : A -> A -> number).

Definition sorts_after (x y : A) : bool := ltb zero (comparefn x y).

Fixpoint insert_sorted (x : A) (l : list A) : list A :=
  match l with
  | [] => [x]
  | y :: l' => if sorts_after x y then y :: insert_sorted x l' else x :: l
  end.

Definition sort (l : list A) : list A := foldr insert_sorted [] l.
End Sort.

(** [(a, b) => b.profitPerMinute - a.profitPerMinute] *)
Definition by_profit_density (a b : Task.t) : number :=
  sub (Task.profitPerMinute b) (Task.profitPerMinute a).

Definition ranked (l : list Task.t) : list Task.t := sort by_profit_density l.

(** ** Greedy allocator *)

(** [machines.reduce((acc, machine) => { acc[machine.name] = ...; return acc }, {})] *)
Definition empty_timeline : timeline := {| tasks := []; currentTime := zero |}.

Definition init_timelines (machines : list Machine.t) : gmap string timeline :=
  foldl (fun acc machine => <[Machine.name machine := empty_timeline]> acc)
        ∅ machines.

(** [(settings.workHours || 8) * 60] *)
Definition totalWorkMinutes (settings : Settings.t) : number :=
  mul (ToNumber (val_or (Settings.workHours settings) (JNum (of_Z 8))))
      (of_Z 60).

(** One turn of the inner loop over [task.allowedMachines]; the state is
    [(bestMachine, earliestFinishTime)]. *)
Definition scan_machine (machineTimelines : gmap string timeline)
    (task : Task.t) (st : option string * number) (machineName : string)
  : option string * number :=
  match machineTimelines !! machineName with
  | Some mt =>
      let finishTime := add (currentTime mt) (Task.buildTime task) in
      if ltb finishTime (snd st) then (Some machineName, finishTime) else st
  | None => st
  end.

Definition best_machine (machineTimelines : gmap string timeline)
    (task : Task.t) : option string * number :=
  foldl (scan_machine machineTimelines task) (None, Inf false)
        (Task.allowedMachines task).

(** Truthiness of [bestMachine]: [null] and the empty string are falsy. *)
Definition name_truthy (b : option string) : bool :=
  match b with
  | Some s => negb (String.eqb s "")
  | None => false
  end.

(** The two arms of the loop body.  [assign] is only reached with
    [bestMachine] a key of [machineTimelines] (lemma [best_machine_spec]),
    so its last branch is never taken. *)
Definition assign (st : result) (bestMachine : string)
    (earliestFinishTime : number) (task : Task.t) : result :=
  match schedule st !! bestMachine with
  | Some mt =>
      let startTime := currentTime mt in
      {| schedule :=
           <[bestMachine :=
               {| tasks := tasks mt ++
                    [ {| placed_task := task;
                         startTime := startTime;
                         endTime := earliestFinishTime |} ];
                  currentTime := earliestFinishTime |}]> (schedule st);
         totalProfit := add (totalProfit st) (Task.profit task);
         overflowTasks := overflowTasks st |}
  | None => st
  end.

Definition push_overflow (st : result) (task : Task.t) : result :=
  {| schedule := schedule st;
     totalProfit := totalProfit st;
     overflowTasks := overflowTasks st ++ [task] |}.

(** The body of the loop over the ranked tasks. *)
Definition allocate_step (totalWorkMinutes : number) (st : result)
    (task : Task.t) : result :=
  let '(bestMachine, earliestFinishTime) := best_machine (schedule st) task in
  if name_truthy bestMachine && leb earliestFinishTime totalWorkMinutes then
    match bestMachine with
    | Some b => assign st b earliestFinishTime task
    | None => st
    end
  else push_overflow st task.

Definition allocate (totalWorkMinutes : number)
    (machineTimelines : gmap string timeline) (sorted : list Task.t) : result :=
  foldl (allocate_step totalWorkMinutes)
        {| schedule := machineTimelines;
           totalProfit := zero;
           overflowTasks := [] |}
        sorted.

(** The memoised computation [scheduleData]; [None] is [null].
    [scheduleOrders] is [undefined] when no schedule has been generated. *)
Definition scheduleData (scheduleOrders : option (list Order.t))
    (items : list Item.t) (machines : list Machine.t)
    (settings : Settings.t) : option result :=
  match scheduleOrders with
  | None => None
  | Some orders =>
      if (length items =? 0)%nat || (length machines =? 0)%nat then None
      else Some (allocate (totalWorkMinutes settings)
                          (init_timelines machines)
                          (ranked (allTasks orders items)))
  end.

(** ** Overflow aggregator *)

(** What a property of the object of counts holds: a count, or the text
    that [+ 1] makes of a function inherited from [Object.prototype], which
    is the text of the function [inherited] followed by [ones] digits 1. *)
Inductive counted : Type :=
| Count (n : nat)
| FunctionText (inherited : string) (ones : nat).

#[global] Instance counted_eq_dec : EqDecision counted.
Proof. solve_decision. Defined.

Record overflow_report : Type := mkReport {
  report_items : gmap string counted;
  report_totalProfit : number;
}.

(** The functions that an object literal inherits from [Object.prototype]. *)
Definition Object_prototype_functions : list string :=
  [ "constructor"; "hasOwnProperty"; "isPrototypeOf"; "propertyIsEnumerable";
    "toLocaleString"; "toString"; "valueOf"; "__defineGetter__";
    "__defineSetter__"; "__lookupGetter__"; "__lookupSetter__" ].

(** [acc[task.name] = (acc[task.name] || 0) + 1], with [acc] the own
    properties of the object.  A count or a text is truthy and [+ 1] adds
    one or appends a digit.  Without an own property the name is looked up
    in [Object.prototype]: [__proto__] reads as the prototype itself, and
    the assignment of the text made of it is ignored by the setter; an
    inherited function gives the text of the function and a digit, stored
    as an own property; any other name reads as [undefined] and counts
    from [0]. *)
Definition count_name (acc : gmap string counted) (task : Task.t)
  : gmap string counted :=
  let name := Task.name task in
  match acc !! name with
  | Some (Count n) => <[name := Count (S n)]> acc
  | Some (FunctionText f ones) => <[name := FunctionText f (S ones)]> acc
  | None =>
      if String.eqb name "__proto__" then acc
      else if bool_decide (name ∈ Object_prototype_functions)
      then <[name := FunctionText name 1]> acc
      else <[name := Count 1]> acc
  end.

Definition aggregatedOverflow (scheduleData : option result) : overflow_report :=
  match scheduleData with
  | None => {| report_items := ∅; report_totalProfit := zero |}
  | Some r =>
      {| report_items := foldl count_name ∅ (overflowTasks r);
         report_totalProfit :=
           foldl (fun sum task => add sum (Task.profit task)) zero
                 (overflowTasks r) |}
  end.

(** ** The allocator in binary64 *)

(** The loop over the ranked tasks and the sum of the overflow report once
    more, with the numbers as JavaScript has them: IEEE 754 binary64, where
    [+] rounds to the nearest number and a sum depends on the order of its
    terms.  The tasks are taken as the expander and the ranker deliver
    them. *)
Module Binary64.
Import PrimFloat.
Set Warnings "-inexact-float".

Module Task.
Record t : Type := mk {
  id : string;
  name : string;
  buildTime : float;
  profit : float;
  profitPerMinute : float;
  allowedMachines : list string;
}.
End Task.

Record placed : Type := mkPlaced {
  placed_task : Task.t;
  startTime : float;
  endTime : float;
}.

Record timeline : Type := mkTimeline {
  tasks : list placed;
  currentTime : float;
}.

Record result : Type := mkResult {
  schedule : gmap string timeline;
  totalProfit : float;
  overflowTasks : list Task.t;
}.

Definition empty_timeline : timeline := {| tasks := []; currentTime := 0%float |}.

Definition init_timelines (machines : list Machine.t) : gmap string timeline :=
  foldl (fun acc machine => <[Machine.name machine := empty_timeline]> acc)
        ∅ machines.

Definition scan_machine (machineTimelines : gmap string timeline)
    (task : Task.t) (st : option string * float) (machineName : string)
  : option string * float :=
  match machineTimelines !! machineName with
  | Some mt =>
      let finishTime := (currentTime mt + Task.buildTime task)%float in
      if (finishTime <? snd st)%float then (Some machineName, finishTime) else st
  | None => st
  end.

Definition best_machine (machineTimelines : gmap string timeline)
    (task : Task.t) : option string * float :=
  foldl (scan_machine machineTimelines task) (None, infinity)
        (Task.allowedMachines task).

Definition assign (st : result) (bestMachine : string)
    (earliestFinishTime : float) (task : Task.t) : result :=
  match schedule st !! bestMachine with
  | Some mt =>
      let startTime := currentTime mt in
      {| schedule :=
           <[bestMachine :=
               {| tasks := tasks mt ++
                    [ {| placed_task := task;
                         startTime := startTime;
                         endTime := earliestFinishTime |} ];
                  currentTime := earliestFinishTime |}]> (schedule st);
         totalProfit := (totalProfit st + Task.profit task)%float;
         overflowTasks := overflowTasks st |}
  | None => st
  end.

Definition push_overflow (st : result) (task : Task.t) : result :=
  {| schedule := schedule st;
     totalProfit := totalProfit st;
     overflowTasks := overflowTasks st ++ [task] |}.

Definition allocate_step (totalWorkMinutes : float) (st : result)
    (task : Task.t) : result :=
  let '(bestMachine, earliestFinishTime) := best_machine (schedule st) task in
  if name_truthy bestMachine && (earliestFinishTime <=? totalWorkMinutes)%float
  then
    match bestMachine with
    | Some b => assign st b earliestFinishTime task
    | None => st
    end
  else push_overflow st task.

Definition allocate (totalWorkMinutes : float)
    (machineTimelines : gmap string timeline) (sorted : list Task.t) : result :=
  foldl (allocate_step totalWorkMinutes)
        {| schedule := machineTimelines;
           totalProfit := 0%float;
           overflowTasks := [] |}
        sorted.


(** The profits of [l] added up from 0 in the order of [l]. *)
Definition running_profit (l : list Task.t) : float :=
  foldl (fun sum task => (sum + Task.profit task)%float) 0%float l.

(** Whether the turn of [task] from the state [st] ends in a placement:
    the overflow list does not grow. *)
Definition placed_in_turn (totalWorkMinutes : float) (st : result)
    (task : Task.t) : bool :=
  (length (overflowTasks (allocate_step totalWorkMinutes st task))
   =? length (overflowTasks st))%nat.

(** The tasks that the loop places while it walks [sorted] from the state
    [st], in the order of their turns. *)
Fixpoint placements (totalWorkMinutes : float) (st : result)
    (sorted : list Task.t) : list Task.t :=
  match sorted with
  | [] => []
  | task :: rest =>
      (if placed_in_turn totalWorkMinutes st task then [task] else [])
      ++ placements totalWorkMinutes (allocate_step totalWorkMinutes st task)
                    rest
  end.




End Binary64.

(** ** Vocabulary of the properties *)

(** The candidate finish time of [task] on the machine named [m], when the
    pool has such a machine. *)
Definition finish_on (machineTimelines : gmap string timeline)
    (task : Task.t) (m : string) : option number :=
  (fun mt => add (currentTime mt) (Task.buildTime task))
    <$> machineTimelines !! m.

(** [m], found at position [i] of [task.allowedMachines], has the earliest
    candidate finish time [f]: a proper finish time (below [Infinity]),
    strictly below every candidate listed before position [i] and not above
    any candidate listed from position [i] on.  A candidate whose finish
    time is [NaN] competes with nothing. *)
Definition is_earliest (machineTimelines : gmap string timeline)
    (task : Task.t) (m : string) (f : number) : Prop :=
  exists i : nat,
    Task.allowedMachines task !! i = Some m
    /\ finish_on machineTimelines task m = Some f
    /\ ltb f (Inf false) = true
    /\ forall (j : nat) (m' : string) (f' : number),
         Task.allowedMachines task !! j = Some m' ->
         finish_on machineTimelines task m' = Some f' ->
         f' = NaN
         \/ (if decide (j < i)%nat then ltb f f' = true else leb f f' = true).

(** [b] does not rank above [a]. *)
Definition descending {A : Type} (key : A -> number) (a b : A) : Prop :=
  leb (key b) (key a) = true.

(** What the inner loop has established after the machine names [seen]:
    no candidate among them beats the recorded finish time, and the recorded
    machine, if any, is the first to reach it. *)
Definition scanned (T : gmap string timeline) (task : Task.t)
    (seen : list string) (st : option string * number) : Prop :=
  (forall j m' f', seen !! j = Some m' -> finish_on T task m' = Some f' ->
                   ltb f' (snd st) = false)
  /\ match fst st with
     | None => snd st = Inf false
     | Some m =>
         exists i, seen !! i = Some m
           /\ finish_on T task m = Some (snd st)
           /\ ltb (snd st) (Inf false) = true
           /\ forall j m' f', (j < i)%nat -> seen !! j = Some m' ->
                finish_on T task m' = Some f' ->
                f' = NaN \/ ltb (snd st) f' = true
     end.

(** The state after [task] has been put on machine [m] to finish at [f]. *)
Definition placed_on (st : result) (task : Task.t) (m : string) (f : number)
    (mt : timeline) : result :=
  {| schedule :=
       <[m := {| tasks := tasks mt ++ [mkPlaced task (currentTime mt) f];
                 currentTime := f |}]> (schedule st);
     totalProfit := add (totalProfit st) (Task.profit task);
     overflowTasks := overflowTasks st |}.

(** All tasks held by the timelines of a schedule. *)
Definition assigned (machineTimelines : gmap string timeline) : list placed :=
  map_to_list machineTimelines ≫= (fun kv => tasks (snd kv)).

Definition assignedTasks (r : result) : list Task.t :=
  placed_task <$> assigned (schedule r).

(** Back-to-back slots from instant [s] to instant [e]. *)
Fixpoint contiguous (s : number) (ps : list placed) (e : number) : Prop :=
  match ps with
  | [] => e = s
  | p :: ps' =>
      startTime p = s
      /\ endTime p = add (startTime p) (Task.buildTime (placed_task p))
      /\ contiguous (endTime p) ps' e
  end.

(** The profits of [l] added up from 0 in the order of [l], as
    [totalProfit += task.profit] and
    [reduce((sum, task) => sum + task.profit, 0)] add them. *)
Definition running_profit (l : list Task.t) : number :=
  foldl (fun sum task => add sum (Task.profit task)) zero l.

(** Whether the turn of [task] from the state [st] ends in a placement:
    the overflow list does not grow. *)
Definition placed_in_turn (totalWorkMinutes : number) (st : result)
    (task : Task.t) : bool :=
  (length (overflowTasks (allocate_step totalWorkMinutes st task))
   =? length (overflowTasks st))%nat.

(** The tasks that the loop places while it walks [sorted] from the state
    [st], in the order of their turns. *)
Fixpoint placements (totalWorkMinutes : number) (st : result)
    (sorted : list Task.t) : list Task.t :=
  match sorted with
  | [] => []
  | task :: rest =>
      (if placed_in_turn totalWorkMinutes st task then [task] else [])
      ++ placements totalWorkMinutes (allocate_step totalWorkMinutes st task)
                    rest
  end.

(** The slots of machine [m] in a result, as (start, end) pairs. *)
Definition intervals (r : result) (m : string) : list (number * number) :=
  match schedule r !! m with
  | Some tl => (fun p => (startTime p, endTime p)) <$> tasks tl
  | None => []
  end.

Definition machine_names (machines : list Machine.t) : list string :=
  Machine.name <$> machines.

(** A price or cost as the expander reads it: what [parseFloat] yields, or
    zero when that is [NaN]. *)
Definition parsed_or_zero (v : jsval) : number :=
  match parseFloat v with
  | NaN => zero
  | x => x
  end.

(** [c] occurs in [s]. *)
Fixpoint occurs (c : ascii) (s : string) : Prop :=
  match s with
  | EmptyString => False
  | String c' r => c = c' \/ occurs c r
  end.

(** The task the expander emits for unit [i] of [order] from the catalog
    entry [itemDetails]. *)
Definition unit_task (itemDetails : Item.t) (order : Order.t) (i : nat) : Task.t :=
  let profit :=
    sub (parsed_or_zero (Item.price itemDetails))
        (parsed_or_zero (Item.cost itemDetails)) in
  {| Task.id := task_id order i;
     Task.name := Order.itemName order;
     Task.buildTime := parseFloat (Item.buildTime itemDetails);
     Task.profit := profit;
     Task.profitPerMinute :=
       div profit (parseFloat (Item.buildTime itemDetails));
     Task.allowedMachines := default [] (Item.allowedMachines itemDetails) |}.

(** ** Sample data *)

Definition machinesAB : list Machine.t :=
  [ Machine.mk "machine-1" "A"; Machine.mk "machine-2" "B" ].

(** An item that takes 100 minutes and may run on "A" and on "B". *)
Definition widget (price cost : jsval) : Item.t :=
  Item.mk "item-1" "Widget" (JStr "100") price cost (Some ["A"; "B"]).

Definition order_of (id : string) (quantity : nat) : Order.t :=
  Order.mk id "item-1" "Widget" quantity.

Definition settings_hours (h : Z) : Settings.t :=
  Settings.mk (JNum (of_Z h)) (JNum (of_Z 9)).

(** A second item, quicker and more profitable per minute, for "B" only. *)
Definition gadget : Item.t :=
  Item.mk "item-2" "Gadget" (JStr "50") (JStr "20") (JStr "5") (Some ["B"]).

Definition sample_items : list Item.t := [ widget (JStr "10") (JStr "4"); gadget ].

Definition sample_orders : list Order.t :=
  [ Order.mk "order-1" "item-1" "Widget" 8;
    Order.mk "order-2" "item-2" "Gadget" 3;
    Order.mk "order-3" "item-3" "Gone" 2 ].

Definition sample_result : result :=
  allocate (totalWorkMinutes (settings_hours 8)) (init_timelines machinesAB)
           (ranked (allTasks sample_orders sample_items)).

Definition sample_timeline (m : string) : timeline :=
  default empty_timeline (schedule sample_result !! m).

(** ** Time formatter *)

(** [Math.floor] *)
Definition floor (x : number) : number :=
  match x with
  | Fin q => of_Z (Qfloor q)
  | _ => x
  end.

(** The integer part of a quotient, rounded towards zero. *)
Definition truncate (q : Qc) : Z :=
  if Qc_negative q then Qceiling q else Qfloor q.

(** [x % y]: the remainder has the sign of the dividend. *)
Definition rem (x y : number) : number :=
  match x, y with
  | NaN, _ | _, NaN => NaN
  | Inf _, _ => NaN
  | Fin _, Inf _ => x
  | Fin a, Fin b =>
      if Qc_is_zero b then NaN
      else Fin (a - b * Q2Qc (inject_Z (truncate (a / b))))
  end.

(** [x === 0] *)
Definition is_zero (x : number) : bool :=
  match x with
  | Fin q => Qc_is_zero q
  | _ => false
  end.

(** The text of a number inside a template literal.  Whole numbers below
    10^21 print in decimal and the special values by name; the printing of
    a fraction (the shortest decimal that reads back as the same binary64
    value) is not modelled, and is [None]. *)
Definition number_to_string (x : number) : option string :=
  match x with
  | NaN => Some "NaN"
  | Inf false => Some "Infinity"
  | Inf true => Some "-Infinity"
  | Fin q =>
      if (Qden q =? 1)%positive
         && (Z.abs (Qnum q) <? 10 ^ 21)%Z
      then Some (pretty (Qnum q))
      else None
  end.

(** [formatTime(minutesFromStart, startHour)], called with a start or end
    time of a task and [settings.workdayStartHour]. *)
Definition formatTime (minutesFromStart : number) (startHour : jsval)
  : option string :=
  let totalMinutes := add (mul (ToNumber startHour) (of_Z 60)) minutesFromStart in
  let hours := rem (floor (div totalMinutes (of_Z 60))) (of_Z 24) in
  let mins := rem totalMinutes (of_Z 60) in
  let period := if leb (of_Z 12) hours then "PM" else "AM" in
  let displayHour := rem hours (of_Z 12) in
  let displayHour := if is_zero displayHour then of_Z 12 else displayHour in
  h ← number_to_string displayHour;
  m ← number_to_string mins;
  let displayMins := if ltb mins (of_Z 10) then "0" +:+ m else m in
  Some (h +:+ ":" +:+ displayMins +:+ " " +:+ period).

(** The 12-hour clock reading of minute [t] of a day that starts at
    midnight: what the formatter is meant to print. *)
Definition clock (t : Z) : string :=
  let h := ((t / 60) mod 24)%Z in
  let m := (t mod 60)%Z in
  let h12 := if (h mod 12 =? 0)%Z then 12%Z else (h mod 12)%Z in
  pretty h12 +:+ ":"
  +:+ (if (m <? 10)%Z then "0" +:+ pretty m else pretty m)
  +:+ " " +:+ (if (12 <=? h)%Z then "PM" else "AM").

(** ** The planner's state and its handlers *)

(** [{ orders, generatedAt }], the saved schedule. *)
Record saved_schedule : Type := mkSaved {
  saved_orders : list Order.t;
  generatedAt : string;
}.

(** What [data.settings] holds: the settings object, or, once the settings
    form has been used, the function
    [prev => ({ ...prev, [name]: parsedValue })] that the form hands to
    [onSetSettings] and that [handleSetSettings] stores as it is. *)
Inductive stored_settings : Type :=
| SettingsObject (s : Settings.t)
| SettingsUpdater (name : string) (parsedValue : number).

Module Data.
Record t : Type := mk {
  items : list Item.t;
  machines : list Machine.t;
  orders : list Order.t;
  schedule : option saved_schedule;
  settings : stored_settings;
}.
End Data.

(** The default structure of [storage.load]. *)
Definition default_data : Data.t :=
  {| Data.items := [];
     Data.machines := [Machine.mk "default-machine-1" "Laser Cutter"];
     Data.orders := [];
     Data.schedule := None;
     Data.settings :=
       SettingsObject (Settings.mk (JNum (of_Z 8)) (JNum (of_Z 9))) |}.

Definition handleSetItems (d : Data.t) (newItems : list Item.t) : Data.t :=
  {| Data.items := newItems;
     Data.machines := Data.machines d;
     Data.orders := Data.orders d;
     Data.schedule := Data.schedule d;
     Data.settings := Data.settings d |}.

Definition handleSetMachines (d : Data.t) (newMachines : list Machine.t) : Data.t :=
  {| Data.items := Data.items d;
     Data.machines := newMachines;
     Data.orders := Data.orders d;
     Data.schedule := Data.schedule d;
     Data.settings := Data.settings d |}.

(** The schedule is invalidated on an order change. *)
Definition handleSetOrders (d : Data.t) (newOrders : list Order.t) : Data.t :=
  {| Data.items := Data.items d;
     Data.machines := Data.machines d;
     Data.orders := newOrders;
     Data.schedule := None;
     Data.settings := Data.settings d |}.

Definition handleSetSchedule (d : Data.t) (newSchedule : saved_schedule) : Data.t :=
  {| Data.items := Data.items d;
     Data.machines := Data.machines d;
     Data.orders := Data.orders d;
     Data.schedule := Some newSchedule;
     Data.settings := Data.settings d |}.

Definition handleSetSettings (d : Data.t) (newSettings : stored_settings) : Data.t :=
  {| Data.items := Data.items d;
     Data.machines := Data.machines d;
     Data.orders := Data.orders d;
     Data.schedule := Data.schedule d;
     Data.settings := newSettings |}.

(** The planner's [handleGenerateSchedule]; [now] is the time stamp. *)
Definition handleGenerateSchedule (d : Data.t) (now : string) : Data.t :=
  handleSetSchedule d {| saved_orders := Data.orders d; generatedAt := now |}.

(** What the views read from [data.settings]: the fields of the object; a
    function has neither field, and both read as [undefined]. *)
Definition settings_props (s : stored_settings) : Settings.t :=
  match s with
  | SettingsObject s => s
  | SettingsUpdater _ _ => Settings.mk JUndefined JUndefined
  end.

(** [scheduleData] as the schedule view computes it from the state:
    [scheduleOrders] is [data.schedule?.orders]. *)
Definition view_scheduleData (d : Data.t) : option result :=
  scheduleData (saved_orders <$> Data.schedule d) (Data.items d)
               (Data.machines d) (settings_props (Data.settings d)).

(** [parseInt(value, 10)] on a string. *)
Definition parseInt10 (value : string) : number :=
  let '(neg, r) := read_sign (skip_ws value) in
  let '(v, n, _) := read_digits 10 r 0%N 0%nat in
  match n with
  | O => NaN
  | S _ => of_Z (if neg then - Z.of_N v else Z.of_N v)
  end.

(** The settings form: [handleInputChange] for the field [name] holding
    the text [value]. *)
Definition handleInputChange (d : Data.t) (name value : string) : Data.t :=
  let parsedValue := parseInt10 value in
  match parsedValue with
  | NaN => d
  | _ => handleSetSettings d (SettingsUpdater name parsedValue)
  end.

(** Edits that go through [handleSetItems], [handleSetMachines] and
    [handleSetSettings]. *)
Inductive edit : Type :=
| SetItems (newItems : list Item.t)
| SetMachines (newMachines : list Machine.t)
| SetSettings (newSettings : stored_settings).

Definition apply_edit (d : Data.t) (e : edit) : Data.t :=
  match e with
  | SetItems l => handleSetItems d l
  | SetMachines l => handleSetMachines d l
  | SetSettings s => handleSetSettings d s
  end.

(** ** Item library and item form *)

Module FormData.
Record t : Type := mk {
  name : string;
  buildTime : jsval;
  price : jsval;
  cost : jsval;
  allowedMachines : list string;
}.
End FormData.

(** The initial state of the form, for a new item or for [item]. *)
Definition form_of_item (item : option Item.t) : FormData.t :=
  match item with
  | None => FormData.mk "" (JStr "") (JStr "") (JStr "") []
  | Some it =>
      {| FormData.name := Item.name it;
         FormData.buildTime := val_or (Item.buildTime it) (JStr "");
         FormData.price := val_or (Item.price it) (JStr "");
         FormData.cost := val_or (Item.cost it) (JStr "");
         FormData.allowedMachines := default [] (Item.allowedMachines it) |}
  end.

(** [handleMachineToggle] *)
Definition handleMachineToggle (allowedMachines : list string)
    (machineName : string) : list string :=
  if bool_decide (machineName ∈ allowedMachines)
  then filter (fun m => m <> machineName) allowedMachines
  else allowedMachines ++ [machineName].

(** [handleSubmit] of the form: [Some] is the call of [onSave], [None] an
    alert. *)
Definition handleSubmit (formData : FormData.t) : option FormData.t :=
  if String.eqb (FormData.name formData) ""
     || negb (ToBoolean (FormData.buildTime formData))
     || negb (ToBoolean (FormData.price formData))
     || negb (ToBoolean (FormData.cost formData))
  then None
  else if (length (FormData.allowedMachines formData) =? 0)%nat then None
  else Some formData.

(** [{ ...i, ...itemData }] and [{ ...itemData, id }] *)
Definition item_with (id : string) (itemData : FormData.t) : Item.t :=
  {| Item.id := id;
     Item.name := FormData.name itemData;
     Item.buildTime := FormData.buildTime itemData;
     Item.price := FormData.price itemData;
     Item.cost := FormData.cost itemData;
     Item.allowedMachines := Some (FormData.allowedMachines itemData) |}.

(** [handleSaveItem]; [now] is [Date.now()]. *)
Definition handleSaveItem (items : list Item.t) (editingItem : option Item.t)
    (itemData : FormData.t) (now : nat) : list Item.t :=
  match editingItem with
  | Some e =>
      if negb (String.eqb (Item.id e) "") then
        map (fun i => if String.eqb (Item.id i) (Item.id e)
                      then item_with (Item.id i) itemData else i) items
      else items ++ [item_with ("item-" +:+ pretty now) itemData]
  | None => items ++ [item_with ("item-" +:+ pretty now) itemData]
  end.

(** [handleDeleteItem]; nothing happens without an item to delete. *)
Definition handleDeleteItem (items : list Item.t) (itemToDelete : option string)
  : list Item.t :=
  match itemToDelete with
  | Some id =>
      if String.eqb id "" then items
      else filter (fun i => Item.id i <> id) items
  | None => items
  end.

(** ** Machine library *)

(** [String.prototype.trim], for the white space of the ASCII range. *)
Definition trim (s : string) : string :=
  String.rev (skip_ws (String.rev (skip_ws s))).

(** [handleAddMachine]; [now] is [Date.now()]. *)
Definition handleAddMachine (machines : list Machine.t)
    (newMachineName : string) (now : nat) : list Machine.t :=
  if String.eqb (trim newMachineName) "" then machines
  else machines ++ [ {| Machine.name := trim newMachineName;
                        Machine.id := "machine-" +:+ pretty now |} ].

Definition handleDeleteMachine (machines : list Machine.t)
    (machineToDelete : option string) : list Machine.t :=
  match machineToDelete with
  | Some id =>
      if String.eqb id "" then machines
      else filter (fun m => Machine.id m <> id) machines
  | None => machines
  end.

(** ** Vocabulary of the further properties *)

(** The number of tasks of [l] that are named [n]. *)
Definition count_named (n : string) (l : list Task.t) : nat :=
  length (filter (fun t => Task.name t = n) l).

(** The time a machine is busy with the tasks [ps]: their build times
    added up from 0 in the order of the timeline. *)
Definition busy_time (ps : list placed) : number :=
  foldl (fun sum p => add sum (Task.buildTime (placed_task p))) zero ps.

(** A name that an object literal inherits from [Object.prototype]. *)
Definition inherited_name (n : string) : bool :=
  String.eqb n "__proto__" || bool_decide (n ∈ Object_prototype_functions).

(** The entry of the overflow report for a name that [k] overflow tasks
    bear. *)
Definition report_entry (n : string) (k : nat) : option counted :=
  match k with
  | O => None
  | S _ =>
      if String.eqb n "__proto__" then None
      else if bool_decide (n ∈ Object_prototype_functions)
      then Some (FunctionText n k)
      else Some (Count k)
  end.

(** The units that an entry of the overflow report counts. *)
Definition units (c : counted) : nat :=
  match c with
  | Count n => n
  | FunctionText _ _ => 0
  end.

(** The number of units an overflow report counts in all. *)
Definition listed_units (items : gmap string counted) : nat :=
  sum_list (units <$> (snd <$> map_to_list items)).

(** An item as the item form lets it through: every field filled in and
    at least one machine allowed. *)
Definition form_made (it : Item.t) : Prop :=
  Item.name it <> ""
  /\ ToBoolean (Item.buildTime it) = true
  /\ ToBoolean (Item.price it) = true
  /\ ToBoolean (Item.cost it) = true
  /\ exists l, Item.allowedMachines it = Some l /\ l <> [].

(** A whole number of minutes, not negative. *)
Definition whole_minutes (x : number) : Prop :=
  exists n : Z, (0 <= n)%Z /\ x = of_Z n.

(** * Facts about numbers *)

Section number_facts.
Implicit Types x y z : number.
Implicit Types a b c : Qc.

Lemma ltb_Fin a b : ltb (Fin a) (Fin b) = true <-> (a < b)%Qc.
Proof.
  unfold ltb; simpl. rewrite Qclt_alt.
  destruct (a ?= b)%Qc; intuition congruence.
Qed.

Lemma leb_Fin a b : leb (Fin a) (Fin b) = true <-> (a <= b)%Qc.
Proof.
  unfold leb; simpl. rewrite Qcle_alt.
  destruct (a ?= b)%Qc; intuition congruence.
Qed.

Lemma ltb_Fin_false a b : ltb (Fin a) (Fin b) = false <-> (b <= a)%Qc.
Proof.
  rewrite <- not_true_iff_false, ltb_Fin. split.
  - apply Qcnot_lt_le.
  - intros H1 H2. exact (Qcle_not_lt _ _ H1 H2).
Qed.

Lemma leb_Fin_false a b : leb (Fin a) (Fin b) = false <-> (b < a)%Qc.
Proof.
  rewrite <- not_true_iff_false, leb_Fin. split.
  - apply Qcnot_le_lt.
  - intros H1 H2. exact (Qclt_not_le _ _ H1 H2).
Qed.

Lemma add_comm x y : add x y = add y x.
Proof.
  destruct x as [|[]|a], y as [|[]|b]; simpl; try reflexivity.
  f_equal. apply Qcplus_comm.
Qed.

Lemma add_assoc x y z : add x (add y z) = add (add x y) z.
Proof.
  destruct x as [|[]|a], y as [|[]|b], z as [|[]|c]; simpl; try reflexivity.
  f_equal. apply Qcplus_assoc.
Qed.

Lemma add_zero_l x : add zero x = x.
Proof.
  destruct x as [|[]|a]; simpl; try reflexivity.
  f_equal. apply Qcplus_0_l.
Qed.

Lemma add_zero_r x : add x zero = x.
Proof. rewrite add_comm. apply add_zero_l. Qed.

Lemma ltb_irrefl x : ltb x x = false.
Proof.
  destruct x as [|[]|a]; try reflexivity.
  apply ltb_Fin_false, Qcle_refl.
Qed.

Lemma leb_refl x : x <> NaN -> leb x x = true.
Proof.
  destruct x as [|[]|a]; try reflexivity; try congruence.
  intros _. apply leb_Fin, Qcle_refl.
Qed.

Lemma ltb_not_nan x y : ltb x y = true -> x <> NaN /\ y <> NaN.
Proof.
  destruct x as [|[]|a], y as [|[]|b]; cbv [ltb leb cmp];
    intros; split; congruence.
Qed.

Lemma leb_not_nan x y : leb x y = true -> x <> NaN /\ y <> NaN.
Proof.
  destruct x as [|[]|a], y as [|[]|b]; cbv [ltb leb cmp];
    intros; split; congruence.
Qed.

Lemma ltb_leb x y : ltb x y = true -> leb x y = true.
Proof.
  destruct x as [|[]|a], y as [|[]|b]; try (cbv [ltb leb cmp]; congruence); try reflexivity.
  rewrite ltb_Fin, leb_Fin. apply Qclt_le_weak.
Qed.

Lemma ltb_false_leb x y :
  x <> NaN -> y <> NaN -> ltb x y = false -> leb y x = true.
Proof.
  destruct x as [|[]|a], y as [|[]|b];
    try congruence; try reflexivity; try (cbv [ltb leb cmp]; congruence).
  intros _ _. rewrite ltb_Fin_false, leb_Fin. auto.
Qed.

Lemma leb_ltb_false x y : leb x y = true -> ltb y x = false.
Proof.
  destruct x as [|[]|a], y as [|[]|b];
    try reflexivity; try (cbv [ltb leb cmp]; congruence).
  rewrite ltb_Fin_false, leb_Fin. auto.
Qed.

Lemma ltb_asym x y : ltb x y = true -> ltb y x = false.
Proof. intros H. apply leb_ltb_false, ltb_leb, H. Qed.

Lemma ltb_trans x y z : ltb x y = true -> ltb y z = true -> ltb x z = true.
Proof.
  destruct x as [|[]|a], y as [|[]|b], z as [|[]|c];
    try reflexivity; try (cbv [ltb leb cmp]; congruence).
  rewrite !ltb_Fin. apply Qclt_trans.
Qed.

Lemma leb_trans x y z : leb x y = true -> leb y z = true -> leb x z = true.
Proof.
  destruct x as [|[]|a], y as [|[]|b], z as [|[]|c];
    try reflexivity; try (cbv [ltb leb cmp]; congruence).
  rewrite !leb_Fin. apply Qcle_trans.
Qed.

Lemma ltb_leb_trans x y z : ltb x y = true -> leb y z = true -> ltb x z = true.
Proof.
  destruct x as [|[]|a], y as [|[]|b], z as [|[]|c];
    try reflexivity; try (cbv [ltb leb cmp]; congruence).
  rewrite !ltb_Fin, leb_Fin. apply Qclt_le_trans.
Qed.

Lemma leb_ltb_trans x y z : leb x y = true -> ltb y z = true -> ltb x z = true.
Proof.
  destruct x as [|[]|a], y as [|[]|b], z as [|[]|c];
    try reflexivity; try (cbv [ltb leb cmp]; congruence).
  rewrite !ltb_Fin, leb_Fin. apply Qcle_lt_trans.
Qed.

Lemma leb_antisym x y : leb x y = true -> leb y x = true -> x = y.
Proof.
  destruct x as [|[]|a], y as [|[]|b];
    try reflexivity; try (cbv [ltb leb cmp]; congruence).
  rewrite !leb_Fin. intros. f_equal. by apply Qcle_antisym.
Qed.

Lemma leb_false_ltb x y :
  x <> NaN -> y <> NaN -> leb x y = false -> ltb y x = true.
Proof.
  destruct x as [|[]|a], y as [|[]|b];
    try congruence; try reflexivity; try (cbv [ltb leb cmp]; congruence).
  intros _ _. by rewrite leb_Fin_false, ltb_Fin.
Qed.

Lemma add_not_nan x y : add x y <> NaN -> x <> NaN /\ y <> NaN.
Proof. destruct x as [|[]|a], y as [|[]|b]; simpl; intros; split; congruence. Qed.

(** The sign of a difference decides the order, as the comparator of the
    profit ranker assumes. *)
Lemma ltb_zero_sub x y : ltb zero (sub y x) = ltb x y.
Proof.
  destruct x as [|[]|a], y as [|[]|b]; try reflexivity.
  change (ltb (Fin 0%Qc) (Fin (b + - a)%Qc) = ltb (Fin a) (Fin b)).
  destruct (ltb (Fin a) (Fin b)) eqn:E.
  - apply ltb_Fin. apply ltb_Fin in E. by apply Qclt_minus_iff in E.
  - apply ltb_Fin_false. apply ltb_Fin_false in E.
    apply Qcle_minus_iff in E. apply Qcle_minus_iff.
    by replace (0 + - (b + - a))%Qc with (a + - b)%Qc by ring.
Qed.

(** Adding a non-negative duration to a non-negative instant moves forward. *)
Lemma leb_add_nonneg x y :
  leb zero x = true -> leb zero y = true ->
  leb x (add x y) = true /\ leb zero (add x y) = true.
Proof.
  destruct x as [|[]|a], y as [|[]|b];
    try (cbv [ltb leb cmp zero of_Z]; intros; congruence);
    try (split; reflexivity).
  unfold zero, of_Z. simpl add. rewrite !leb_Fin. intros Ha Hb. split.
  - rewrite <- (Qcplus_0_r a) at 1. by apply Qcplus_le_compat; [apply Qcle_refl|].
  - change (Q2Qc (inject_Z 0)) with (Q2Qc 0).
    by apply Qcplus_nonneg_nonneg.
Qed.

End number_facts.

(** * The conversions on sample strings *)

Example parseFloat_samples :
  parseFloat (JStr "60") = of_Z 60
  /\ parseFloat (JStr "  12.5px") = ratio 25 2
  /\ parseFloat (JStr "-.5e1x") = of_Z (-5)
  /\ parseFloat (JStr "1.5e-2") = ratio 3 200
  /\ parseFloat (JStr "1e") = of_Z 1
  /\ parseFloat (JStr "5.") = of_Z 5
  /\ parseFloat (JStr "0x10") = of_Z 0
  /\ parseFloat (JStr "-Infinityx") = Inf true
  /\ parseFloat (JStr ".") = NaN
  /\ parseFloat (JStr "abc") = NaN
  /\ parseFloat (JStr "") = NaN
  /\ parseFloat JUndefined = NaN.
Proof. compute_done. Qed.

Example ToNumber_samples :
  ToNumber (JStr "60") = of_Z 60
  /\ ToNumber (JStr " 12 ") = of_Z 12
  /\ ToNumber (JStr "") = of_Z 0
  /\ ToNumber (JStr "  ") = of_Z 0
  /\ ToNumber (JStr "-5") = of_Z (-5)
  /\ ToNumber (JStr "1e3") = of_Z 1000
  /\ ToNumber (JStr "0x10") = of_Z 16
  /\ ToNumber (JStr "+Infinity") = Inf false
  /\ ToNumber (JStr "12px") = NaN
  /\ ToNumber (JStr "-5abc") = NaN
  /\ ToNumber (JStr "-0x10") = NaN
  /\ ToNumber (JStr "0x") = NaN
  /\ ToNumber (JStr "1e") = NaN
  /\ ToNumber (JStr ".") = NaN
  /\ ToNumber JNull = of_Z 0
  /\ ToNumber JUndefined = NaN.
Proof. compute_done. Qed.

(** * Facts about the profit ranker *)

Section sort_facts.
Context {A : Type} (key : A -> number).

(** A comparator of the shape [(a, b) => key(b) - key(a)]. *)
Let comparefn (a b : A) : number := sub (key b) (key a).

Lemma sorts_after_key x y : sorts_after comparefn x y = ltb (key x) (key y).
Proof. apply ltb_zero_sub. Qed.

Lemma insert_sorted_perm x l : insert_sorted comparefn x l ≡ₚ x :: l.
Proof.
  induction l as [|y l IH]; simpl; [done|].
  destruct (sorts_after comparefn x y); [|done].
  rewrite IH. apply Permutation_swap.
Qed.

Lemma sort_perm l : sort comparefn l ≡ₚ l.
Proof.
  induction l as [|x l IH]; simpl; [done|].
  by rewrite insert_sorted_perm, IH.
Qed.

(** An element only ever moves behind elements with a strictly larger key,
    so the elements of any one key keep their order. *)
Lemma insert_sorted_stable v x l :
  filter (fun t => key t = v) (insert_sorted comparefn x l)
  = filter (fun t => key t = v) (x :: l).
Proof.
  induction l as [|y l IH]; simpl; [done|].
  destruct (sorts_after comparefn x y) eqn:E; [|done].
  rewrite sorts_after_key in E.
  rewrite (filter_cons _ y), IH, !filter_cons.
  destruct (decide (key y = v)) as [Hy|Hy], (decide (key x = v)) as [Hx|Hx];
    try done.
  rewrite Hx, Hy, ltb_irrefl in E. discriminate.
Qed.

Lemma sort_stable v l :
  filter (fun t => key t = v) (sort comparefn l)
  = filter (fun t => key t = v) l.
Proof.
  induction l as [|x l IH]; simpl; [done|].
  rewrite insert_sorted_stable, !filter_cons, IH. done.
Qed.

Lemma insert_sorted_descending x l :
  key x <> NaN -> Forall (fun t => key t <> NaN) l ->
  StronglySorted (descending key) l ->
  StronglySorted (descending key) (insert_sorted comparefn x l).
Proof.
  intros Hx. induction 2 as [|y l Hl IH Hy]; simpl; intros.
  - repeat constructor.
  - inversion_clear H as [|?? Hny Hnl].
    destruct (sorts_after comparefn x y) eqn:E; rewrite sorts_after_key in E.
    + constructor; [by apply IH|].
      rewrite insert_sorted_perm. constructor; [|done].
      by apply ltb_leb.
    + constructor; [by constructor|].
      assert (descending key x y) as Hxy by by apply ltb_false_leb.
      constructor; [done|].
      eapply Forall_impl; [exact Hy|].
      intros z Hz. unfold descending in *. by eapply leb_trans.
Qed.

Lemma sort_descending l :
  Forall (fun t => key t <> NaN) l -> StronglySorted (descending key) (sort comparefn l).
Proof.
  induction 1 as [|x l Hx Hl IH]; simpl; [constructor|].
  apply insert_sorted_descending; [done| |done].
  by rewrite sort_perm.
Qed.

(** Elements that the comparator never separates stay where they are. *)
Lemma sort_same_key l v :
  Forall (fun t => key t = v) l -> sort comparefn l = l.
Proof.
  induction 1 as [|x l Hx Hl IH]; simpl; [done|].
  rewrite IH. destruct Hl as [|y l Hy Hl]; simpl; [done|].
  by rewrite sorts_after_key, Hx, Hy, ltb_irrefl.
Qed.

End sort_facts.

(** * Facts about the greedy allocator *)

Section scan_facts.
Context (T : gmap string timeline) (task : Task.t).

Lemma ltb_below_infinity x y : ltb x y = true -> ltb x (Inf false) = true.
Proof. destruct x as [|[]|a], y as [|[]|b]; done. Qed.

Lemma scanned_nil : scanned T task [] (None, Inf false).
Proof. split; [|done]. intros j m' f' Hj. by rewrite lookup_nil in Hj. Qed.

Lemma scanned_step seen st m :
  scanned T task seen st ->
  scanned T task (seen ++ [m]) (scan_machine T task st m).
Proof.
  intros [Hmin Hbest]. unfold scan_machine.
  destruct (T !! m) as [mt|] eqn:Hm.
  2:{ split.
      - intros j m' f' Hj Hf.
        apply lookup_app_Some in Hj as [Hj|[_ Hj]]; [by eapply Hmin|].
        apply list_lookup_singleton_Some in Hj as [_ <-].
        unfold finish_on in Hf. by rewrite Hm in Hf.
      - destruct (fst st) as [b|]; [|done].
        destruct Hbest as (i & Hi & Hf & Hlt & Hbefore).
        exists i. split; [by apply lookup_app_l_Some|].
        repeat split; try done.
        intros j m' f' Hji Hj. apply (Hbefore j m' f' Hji).
        apply lookup_lt_Some in Hi.
        by rewrite lookup_app_l in Hj by lia. }
  set (finishTime := add (currentTime mt) (Task.buildTime task)).
  assert (finish_on T task m = Some finishTime) as Hfm.
  { unfold finish_on. by rewrite Hm. }
  destruct (ltb finishTime (snd st)) eqn:Hlt; simpl.
  - split; simpl.
    + intros j m' f' Hj Hf.
      apply lookup_app_Some in Hj as [Hj|[_ Hj]].
      * destruct (ltb f' finishTime) eqn:E; [|done].
        rewrite <- (Hmin j m' f' Hj Hf). symmetry. by eapply ltb_trans.
      * apply list_lookup_singleton_Some in Hj as [_ <-].
        rewrite Hfm in Hf. injection Hf as <-. apply ltb_irrefl.
    + exists (length seen). split; [by rewrite lookup_app_r, Nat.sub_diag|].
      split; [done|]. split; [by eapply ltb_below_infinity|].
      intros j m' f' Hji Hj Hf.
      rewrite lookup_app_l in Hj by done.
      destruct f' as [|s|c]; [by left|right..].
      * eapply ltb_leb_trans; [exact Hlt|].
        apply ltb_false_leb; [done|by apply ltb_not_nan in Hlt as [??]|by eapply Hmin].
      * eapply ltb_leb_trans; [exact Hlt|].
        apply ltb_false_leb; [done|by apply ltb_not_nan in Hlt as [??]|by eapply Hmin].
  - split.
    + intros j m' f' Hj Hf.
      apply lookup_app_Some in Hj as [Hj|[_ Hj]]; [by eapply Hmin|].
      apply list_lookup_singleton_Some in Hj as [_ <-].
      rewrite Hfm in Hf. by injection Hf as <-.
    + destruct (fst st) as [b|]; [|done].
      destruct Hbest as (i & Hi & Hf & Hlt' & Hbefore).
      exists i. split; [by apply lookup_app_l_Some|].
      repeat split; try done.
      intros j m' f' Hji Hj. apply (Hbefore j m' f' Hji).
      apply lookup_lt_Some in Hi.
      by rewrite lookup_app_l in Hj by lia.
Qed.

Lemma scanned_foldl l seen st :
  scanned T task seen st ->
  scanned T task (seen ++ l) (foldl (scan_machine T task) st l).
Proof.
  revert seen st. induction l as [|m l IH]; intros seen st H; simpl.
  - by rewrite app_nil_r.
  - rewrite cons_middle, app_assoc. apply IH. by apply scanned_step.
Qed.

Lemma best_machine_scanned :
  scanned T task (Task.allowedMachines task) (best_machine T task).
Proof. apply (scanned_foldl _ []), scanned_nil. Qed.

(** The inner loop returns the earliest candidate... *)
Lemma best_machine_spec m f :
  best_machine T task = (Some m, f) -> is_earliest T task m f.
Proof.
  intros Hb. pose proof best_machine_scanned as [Hmin Hbest].
  rewrite Hb in Hmin, Hbest. simpl in *.
  destruct Hbest as (i & Hi & Hf & Hlt & Hbefore).
  exists i. repeat split; try done.
  intros j m' f' Hj Hf'. destruct f' as [|s|c]; [by left|right..].
  - destruct (decide (j < i)%nat) as [Hji|Hji].
    + by destruct (Hbefore j m' _ Hji Hj Hf').
    + apply ltb_false_leb; [done|by apply ltb_not_nan in Hlt as [??]|by eapply Hmin].
  - destruct (decide (j < i)%nat) as [Hji|Hji].
    + by destruct (Hbefore j m' _ Hji Hj Hf').
    + apply ltb_false_leb; [done|by apply ltb_not_nan in Hlt as [??]|by eapply Hmin].
Qed.

(** ... and returns nothing only when there is none. *)
Lemma best_machine_none f m' f' :
  best_machine T task = (None, f) -> ~ is_earliest T task m' f'.
Proof.
  intros Hb (i & Hi & Hf & Hlt & _).
  pose proof best_machine_scanned as [Hmin Hbest].
  rewrite Hb in Hmin, Hbest. simpl in *. subst f.
  rewrite (Hmin i m' f' Hi Hf) in Hlt. discriminate.
Qed.

Lemma is_earliest_unique m1 f1 m2 f2 :
  is_earliest T task m1 f1 -> is_earliest T task m2 f2 ->
  m1 = m2 /\ f1 = f2.
Proof.
  intros (i1 & Hi1 & Hf1 & Hlt1 & Hall1) (i2 & Hi2 & Hf2 & Hlt2 & Hall2).
  assert (f1 <> NaN) as Hn1 by by apply ltb_not_nan in Hlt1 as [??].
  assert (f2 <> NaN) as Hn2 by by apply ltb_not_nan in Hlt2 as [??].
  destruct (Hall1 i2 m2 f2 Hi2 Hf2) as [?|H12]; [done|].
  destruct (Hall2 i1 m1 f1 Hi1 Hf1) as [?|H21]; [done|].
  destruct (decide (i2 < i1)%nat), (decide (i1 < i2)%nat); try lia.
  - apply leb_ltb_false in H21. congruence.
  - apply leb_ltb_false in H12. congruence.
  - assert (i1 = i2) as -> by lia.
    rewrite Hi1 in Hi2. injection Hi2 as ->.
    rewrite Hf1 in Hf2. by injection Hf2 as ->.
Qed.

End scan_facts.

Section step_facts.
Context (total : number).

Lemma finish_on_Some T task m f :
  finish_on T task m = Some f ->
  exists mt, T !! m = Some mt /\ f = add (currentTime mt) (Task.buildTime task).
Proof.
  unfold finish_on. destruct (T !! m) as [mt|]; [|done].
  intros [= <-]. by exists mt.
Qed.

(** The loop body either places the task on the earliest candidate, which
    must have a non-empty name and finish within the budget, or sends it
    to the overflow list. *)
Lemma allocate_step_spec st task :
  (exists m f mt,
      is_earliest (schedule st) task m f
      /\ m <> "" /\ leb f total = true
      /\ schedule st !! m = Some mt
      /\ f = add (currentTime mt) (Task.buildTime task)
      /\ allocate_step total st task = placed_on st task m f mt)
  \/ ((forall m f, is_earliest (schedule st) task m f ->
                   m = "" \/ leb f total = false)
      /\ allocate_step total st task = push_overflow st task).
Proof.
  unfold allocate_step.
  destruct (best_machine (schedule st) task) as [[b|] f] eqn:Hb.
  - pose proof (best_machine_spec _ _ _ _ Hb) as Hbest.
    destruct (name_truthy (Some b) && leb f total) eqn:E.
    + left. apply andb_true_iff in E as [Hname Hle].
      destruct Hbest as (i & Hi & Hf & Hrest).
      destruct (finish_on_Some _ _ _ _ Hf) as (mt & Hmt & Hfeq).
      exists b, f, mt. split; [by exists i|].
      split.
      { intros ->. done. }
      repeat split; try done.
      unfold assign. by rewrite Hmt.
    + right. split; [|done]. intros m f' Hm.
      destruct (is_earliest_unique _ _ _ _ _ _ Hm Hbest) as [-> ->].
      apply andb_false_iff in E as [E|E]; [left|by right].
      simpl in E. apply negb_false_iff, String.eqb_eq in E. done.
  - right. split; [|done]. intros m f' Hm.
    by destruct (best_machine_none _ _ _ _ _ Hb Hm).
Qed.

Lemma allocate_snoc T l task :
  allocate total T (l ++ [task])
  = allocate_step total (allocate total T l) task.
Proof. unfold allocate. apply foldl_snoc. Qed.

(** Induction over a run of the allocator. *)
Lemma allocate_ind (P : result -> list Task.t -> Prop) T :
  P (mkResult T zero []) [] ->
  (forall st seen task mt m f,
      P st seen -> schedule st !! m = Some mt ->
      f = add (currentTime mt) (Task.buildTime task) ->
      leb f total = true ->
      P (placed_on st task m f mt) (seen ++ [task])) ->
  (forall st seen task,
      P st seen -> P (push_overflow st task) (seen ++ [task])) ->
  forall l, P (allocate total T l) l.
Proof.
  intros Hinit Hplace Hover l. induction l as [|task l IH] using rev_ind.
  - exact Hinit.
  - rewrite allocate_snoc.
    destruct (allocate_step_spec (allocate total T l) task)
      as [(m & f & mt & _ & _ & Hle & Hmt & Hf & ->)|[_ ->]].
    + by eapply Hplace.
    + by apply Hover.
Qed.

End step_facts.

Section assigned_facts.

Lemma assigned_insert (T : gmap string timeline) m mt p f :
  T !! m = Some mt ->
  assigned (<[m := {| tasks := tasks mt ++ [p]; currentTime := f |}]> T)
  ≡ₚ assigned T ++ [p].
Proof.
  intros Hm. unfold assigned.
  rewrite <- insert_delete_eq, map_to_list_insert by apply lookup_delete_eq.
  rewrite <- (map_to_list_delete T m mt Hm), !bind_cons. simpl.
  rewrite <- !app_assoc. apply Permutation_app_head, Permutation_app_comm.
Qed.

Lemma assigned_empty (T : gmap string timeline) :
  (forall m tl, T !! m = Some tl -> tasks tl = []) -> assigned T = [].
Proof.
  intros H. unfold assigned.
  assert (Forall (fun kv => tasks (snd kv) = []) (map_to_list T)) as HF.
  { apply Forall_forall. intros [k tl] Hk.
    apply elem_of_map_to_list in Hk. by eapply H. }
  induction HF as [|kv l Hkv _ IH]; [done|].
  by rewrite bind_cons, Hkv, IH.
Qed.

Lemma elem_of_assigned (T : gmap string timeline) p :
  p ∈ assigned T <-> exists m tl, T !! m = Some tl /\ p ∈ tasks tl.
Proof.
  unfold assigned. rewrite list_elem_of_bind. split.
  - intros ([m tl] & Hp & Hm). apply elem_of_map_to_list in Hm. by exists m, tl.
  - intros (m & tl & Hm & Hp). exists (m, tl).
    by rewrite elem_of_map_to_list.
Qed.

Lemma init_timelines_lookup machines m :
  init_timelines machines !! m
  = if decide (m ∈ machine_names machines) then Some empty_timeline else None.
Proof.
  unfold init_timelines, machine_names.
  induction machines as [|mc machines IH] using rev_ind.
  - cbn [foldl]. rewrite lookup_empty. case_decide as H; [|done].
    by apply elem_of_nil in H.
  - rewrite foldl_snoc, fmap_app.
    destruct (decide (m = Machine.name mc)) as [->|Hne].
    + rewrite lookup_insert_eq, decide_True; [done|].
      apply elem_of_app. right. apply list_elem_of_singleton. done.
    + rewrite lookup_insert_ne, IH by done.
      destruct (decide (m ∈ Machine.name <$> machines)) as [Hin|Hin].
      * rewrite decide_True; [done|]. apply elem_of_app. by left.
      * rewrite decide_False; [done|]. intros [?|Hm]%elem_of_app; [done|].
        by apply list_elem_of_singleton in Hm.
Qed.

Lemma init_timelines_empty machines m tl :
  init_timelines machines !! m = Some tl -> tl = empty_timeline.
Proof. rewrite init_timelines_lookup. case_decide; congruence. Qed.

Lemma contiguous_snoc s ps e task :
  contiguous s ps e ->
  contiguous s (ps ++ [mkPlaced task e (add e (Task.buildTime task))])
             (add e (Task.buildTime task)).
Proof.
  revert s. induction ps as [|p ps IH]; intros s; simpl.
  - intros ->. done.
  - intros (Hs & He & Hrest). auto.
Qed.

(** Non-negative durations laid back to back from a non-negative instant
    start one after the other. *)
Lemma contiguous_sorted s ps e :
  leb zero s = true ->
  contiguous s ps e ->
  Forall (fun p => leb zero (Task.buildTime (placed_task p)) = true) ps ->
  Forall (fun p => leb s (startTime p) = true) ps
  /\ StronglySorted (fun p p' => leb (startTime p) (startTime p') = true) ps.
Proof.
  revert s. induction ps as [|p ps IH]; intros s Hs; simpl.
  - intros _ _. split; constructor.
  - intros (Hstart & Hend & Hrest) HF.
    inversion_clear HF as [|?? Hp HF'].
    destruct (leb_add_nonneg (startTime p) (Task.buildTime (placed_task p)))
      as [Hstep Hnn]; [by rewrite Hstart|done|].
    rewrite <- Hend in Hstep, Hnn.
    destruct (IH (endTime p) Hnn Hrest HF') as [Hafter Hsorted].
    assert (s <> NaN) as Hsn by by apply leb_not_nan in Hs as [??].
    split.
    + constructor; [rewrite Hstart; by apply leb_refl|].
      eapply Forall_impl; [exact Hafter|]. intros p' Hp'. simpl in Hp'.
      rewrite <- Hstart. by eapply leb_trans.
    + constructor; [done|].
      eapply Forall_impl; [exact Hafter|]. intros p' Hp'. simpl in Hp'.
      by eapply leb_trans.
Qed.

End assigned_facts.

Section run_facts.
Context (total : number) (T : gmap string timeline).
Hypothesis T_empty : forall m tl, T !! m = Some tl -> tl = empty_timeline.

Lemma T_no_tasks m tl : T !! m = Some tl -> tasks tl = [].
Proof. intros H. by rewrite (T_empty m tl H). Qed.

Lemma assignedTasks_placed_on st task m f mt :
  schedule st !! m = Some mt ->
  assignedTasks (placed_on st task m f mt) ≡ₚ assignedTasks st ++ [task].
Proof.
  intros Hm. unfold assignedTasks, placed_on. simpl.
  rewrite (assigned_insert _ _ _ _ _ Hm), fmap_app. done.
Qed.

Lemma allocate_conservation l :
  assignedTasks (allocate total T l) ++ overflowTasks (allocate total T l)
  ≡ₚ l.
Proof.
  apply (allocate_ind total
           (fun st seen => assignedTasks st ++ overflowTasks st ≡ₚ seen)).
  - unfold assignedTasks. simpl.
    by rewrite (assigned_empty T T_no_tasks).
  - intros st seen task mt m f IH Hm _ _.
    rewrite (assignedTasks_placed_on _ _ _ _ _ Hm). simpl.
    rewrite <- IH, <- !app_assoc.
    apply Permutation_app_head, Permutation_app_comm.
  - intros st seen task IH. simpl. by rewrite app_assoc, IH.
Qed.

Lemma allocate_timelines l m tl :
  schedule (allocate total T l) !! m = Some tl ->
  contiguous zero (tasks tl) (currentTime tl)
  /\ Forall (fun p => leb (endTime p) total = true) (tasks tl).
Proof.
  revert m tl.
  apply (allocate_ind total
           (fun st _ => forall m tl, schedule st !! m = Some tl ->
              contiguous zero (tasks tl) (currentTime tl)
              /\ Forall (fun p => leb (endTime p) total = true) (tasks tl))).
  - simpl. intros m tl Hm. rewrite (T_empty m tl Hm). simpl.
    split; [done|constructor].
  - intros st seen task mt m f IH Hm -> Hle m' tl. simpl.
    destruct (decide (m = m')) as [<-|Hne].
    + rewrite lookup_insert_eq. intros [= <-]. simpl.
      destruct (IH m mt Hm) as [Hc HF]. split.
      * by apply contiguous_snoc.
      * apply Forall_app. split; [done|]. by repeat constructor.
    + rewrite lookup_insert_ne by done. apply IH.
  - intros st seen task IH. exact IH.
Qed.

Lemma allocate_dom l : dom (schedule (allocate total T l)) = dom T.
Proof.
  apply (allocate_ind total (fun st _ => dom (schedule st) = dom T)).
  - done.
  - intros st seen task mt m f IH Hm _ _. simpl.
    by rewrite dom_insert_lookup_L.
  - intros st seen task IH. exact IH.
Qed.

End run_facts.

Lemma contiguous_end s ps e :
  contiguous s ps e ->
  (ps = [] /\ e = s) \/ (exists p, p ∈ ps /\ e = endTime p).
Proof.
  revert s. induction ps as [|p ps IH]; intros s; simpl.
  - by left.
  - intros (_ & _ & Hrest). right.
    destruct (IH _ Hrest) as [[-> ->]|(p' & Hp' & ->)].
    + exists p. split; [apply list_elem_of_here|done].
    + exists p'. split; [by apply list_elem_of_further|done].
Qed.

Lemma scheduleData_Some orders items machines settings r :
  scheduleData (Some orders) items machines settings = Some r ->
  r = allocate (totalWorkMinutes settings) (init_timelines machines)
               (ranked (allTasks orders items)).
Proof.
  unfold scheduleData.
  destruct (_ || _); [done|]. by intros [= <-].
Qed.

Lemma ranked_perm l : ranked l ≡ₚ l.
Proof. apply (sort_perm Task.profitPerMinute). Qed.

(** * The claims *)

Lemma scheduleData_conservation orders items machines settings r :
  scheduleData (Some orders) items machines settings = Some r ->
  assignedTasks r ++ overflowTasks r ≡ₚ allTasks orders items.
Proof.
  intros ->%scheduleData_Some.
  etrans; [|apply ranked_perm].
  apply allocate_conservation, init_timelines_empty.
Qed.

(** C2.  Conservation: the expanded tasks are exactly the tasks held by the
    machine timelines together with the overflow tasks, so the number of
    expanded tasks is the number of assigned tasks plus the number of
    overflow tasks; none is lost and none is duplicated. *)
Theorem conservation orders items machines settings r :
  scheduleData (Some orders) items machines settings = Some r ->
  length (allTasks orders items)
  = (length (assignedTasks r) + length (overflowTasks r))%nat
  /\ assignedTasks r ++ overflowTasks r ≡ₚ allTasks orders items.
Proof.
  intros Hr. pose proof (scheduleData_conservation _ _ _ _ _ Hr) as H.
  split; [|done].
  by rewrite <- (Permutation_length H), length_app.
Qed.

(** C1.  Each turn of the allocator looks at the machines that are named in
    the task's [allowedMachines] and present in the pool, and picks the one
    with the smallest candidate finish time ([currentTime + buildTime]),
    the first in the stored order of [allowedMachines] among equals.  The
    task is placed on that machine when the finish time is within the
    budget (and the name is a non-empty string); otherwise, or when no
    machine is eligible, it overflows. *)
Theorem allocator_picks_earliest_finish total st task :
  (exists m f mt,
      is_earliest (schedule st) task m f
      /\ m <> "" /\ leb f total = true
      /\ schedule st !! m = Some mt
      /\ allocate_step total st task = placed_on st task m f mt)
  \/ ((forall m f, is_earliest (schedule st) task m f ->
                   m = "" \/ leb f total = false)
      /\ allocate_step total st task = push_overflow st task).
Proof.
  destruct (allocate_step_spec total st task)
    as [(m & f & mt & He & Hn & Hle & Hm & _ & Hstep)|H].
  - left. by exists m, f, mt.
  - by right.
Qed.

(** ** The order of the sums *)

Section placement_facts.
Context (total : number).

Lemma placed_in_turn_placed_on st task m f mt :
  allocate_step total st task = placed_on st task m f mt ->
  placed_in_turn total st task = true.
Proof. unfold placed_in_turn. intros ->. simpl. apply Nat.eqb_refl. Qed.

Lemma placed_in_turn_overflow st task :
  allocate_step total st task = push_overflow st task ->
  placed_in_turn total st task = false.
Proof.
  unfold placed_in_turn. intros ->. simpl. rewrite length_app. simpl.
  apply Nat.eqb_neq. lia.
Qed.

Lemma placements_running_profit l : forall st,
  totalProfit (foldl (allocate_step total) st l)
  = foldl (fun sum task => add sum (Task.profit task)) (totalProfit st)
          (placements total st l).
Proof.
  induction l as [|task l IH]; intros st; [done|].
  cbn [foldl placements]. rewrite IH.
  destruct (allocate_step_spec total st task)
    as [(m & f & mt & _ & _ & _ & _ & _ & Hstep)|[_ Hstep]].
  - by rewrite (placed_in_turn_placed_on _ _ _ _ _ Hstep), Hstep.
  - by rewrite (placed_in_turn_overflow _ _ Hstep), Hstep.
Qed.

Lemma placements_assigned l : forall st,
  assignedTasks (foldl (allocate_step total) st l)
  ≡ₚ assignedTasks st ++ placements total st l.
Proof.
  induction l as [|task l IH]; intros st; cbn [foldl placements].
  { by rewrite app_nil_r. }
  rewrite IH.
  destruct (allocate_step_spec total st task)
    as [(m & f & mt & _ & _ & _ & Hm & _ & Hstep)|[_ Hstep]].
  - rewrite (placed_in_turn_placed_on _ _ _ _ _ Hstep), Hstep.
    rewrite (assignedTasks_placed_on _ _ _ _ _ Hm). by rewrite <- app_assoc.
  - by rewrite (placed_in_turn_overflow _ _ Hstep), Hstep.
Qed.



Lemma allocate_placements T l :
  (forall m tl, T !! m = Some tl -> tasks tl = []) ->
  totalProfit (allocate total T l)
  = running_profit (placements total (mkResult T zero []) l)
  /\ placements total (mkResult T zero []) l
     ≡ₚ assignedTasks (allocate total T l).
Proof.
  intros HT. split; [apply placements_running_profit|].
  unfold allocate. rewrite placements_assigned.
  unfold assignedTasks. simpl. by rewrite (assigned_empty T HT).
Qed.

End placement_facts.





(** C5.  The profit ranker permutes the sequence it is given (the expanded
    tasks, in order of arrival of the orders and of unit index within an
    order), keeps the tasks of any one [profitPerMinute] in the order they
    had in that sequence, and, no [profitPerMinute] being [NaN], orders the
    sequence by descending [profitPerMinute]. *)
Theorem ranker_is_stable (l : list Task.t) :
  ranked l ≡ₚ l
  /\ (forall v : number,
        filter (fun t => Task.profitPerMinute t = v) (ranked l)
        = filter (fun t => Task.profitPerMinute t = v) l)
  /\ (Forall (fun t => Task.profitPerMinute t <> NaN) l ->
      StronglySorted (descending Task.profitPerMinute) (ranked l)).
Proof.
  split; [apply ranked_perm|]. split.
  - intros v. apply (sort_stable Task.profitPerMinute).
  - apply (sort_descending Task.profitPerMinute).
Qed.

(** C7, as the code has it.  The budget is [workHours * 60] for a
    [workHours] that is a non-zero number, so it is linear in [workHours]
    away from zero, and it is [480], eight hours, when [workHours] is
    absent, zero or [NaN]. *)
Theorem budget_from_workHours (s : Settings.t) :
  (forall x : number, Settings.workHours s = JNum x -> truthy x = true ->
      totalWorkMinutes s = mul x (of_Z 60))
  /\ (forall h : Qc, Settings.workHours s = JNum (Fin h) -> h <> 0%Qc ->
        totalWorkMinutes s = Fin (h * Q2Qc (inject_Z 60))%Qc)
  /\ (Settings.workHours s = JUndefined \/ Settings.workHours s = JNum zero
      \/ Settings.workHours s = JNum NaN ->
      totalWorkMinutes s = of_Z 480).
Proof.
  unfold totalWorkMinutes, val_or. split; [|split].
  - intros x -> Hx. simpl. by rewrite Hx.
  - intros h -> Hh. simpl. unfold Qc_is_zero.
    by rewrite bool_decide_eq_false_2.
  - intros [-> | [-> | ->]]; compute_done.
Qed.

Lemma contiguous_ends s ps e p :
  contiguous s ps e -> p ∈ ps ->
  endTime p = add (startTime p) (Task.buildTime (placed_task p)).
Proof.
  revert s. induction ps as [|p' ps IH]; intros s; simpl.
  - intros _ Hp. by apply elem_of_nil in Hp.
  - intros (_ & He & Hrest) [->|Hp]%elem_of_cons; [done|]. by eapply IH.
Qed.

(** What the guard of the expander guarantees about a build time. *)
Lemma expand_order_build_time items order t :
  t ∈ expand_order items order ->
  exists it, it ∈ items
    /\ Task.buildTime t = parseFloat (Item.buildTime it)
    /\ leb (ToNumber (Item.buildTime it)) zero = false.
Proof.
  unfold expand_order, find_item.
  destruct (List.find _ items) as [it|] eqn:Hf.
  2:{ intros H. by apply elem_of_nil in H. }
  apply List.find_some in Hf as [Hin _].
  destruct (negb _ || leb _ _) eqn:Hg.
  { intros H. by apply elem_of_nil in H. }
  apply orb_false_iff in Hg as [_ Hle].
  intros (i & -> & _)%list_elem_of_fmap. exists it.
  by rewrite list_elem_of_In.
Qed.

Lemma allTasks_build_time orders items t :
  t ∈ allTasks orders items ->
  exists it, it ∈ items
    /\ Task.buildTime t = parseFloat (Item.buildTime it)
    /\ leb (ToNumber (Item.buildTime it)) zero = false.
Proof.
  unfold allTasks. rewrite list_elem_of_In, in_flat_map.
  intros (order & _ & Ht). apply list_elem_of_In in Ht.
  by eapply expand_order_build_time.
Qed.

(** With a catalog whose build times convert to the number they parse to,
    every task that reaches a timeline has a positive build time. *)
Lemma numeric_catalog_build_times orders items machines settings r m tl :
  scheduleData (Some orders) items machines settings = Some r ->
  schedule r !! m = Some tl ->
  (forall it, it ∈ items ->
     ToNumber (Item.buildTime it) = parseFloat (Item.buildTime it)) ->
  Forall (fun p => leb zero (Task.buildTime (placed_task p)) = true) (tasks tl).
Proof.
  intros Hr Hm Hnum. apply Forall_forall. intros p Hp.
  assert (placed_task p ∈ allTasks orders items) as Hall.
  { rewrite <- (scheduleData_conservation _ _ _ _ _ Hr).
    apply elem_of_app. left. apply list_elem_of_fmap_2.
    apply elem_of_assigned. by exists m, tl. }
  destruct (allTasks_build_time _ _ _ Hall) as (it & Hit & Hbt & Hle).
  rewrite (Hnum it Hit), <- Hbt in Hle.
  apply scheduleData_Some in Hr. subst r.
  destruct (allocate_timelines _ _ (init_timelines_empty machines) _ _ _ Hm)
    as [Hc HF].
  rewrite Forall_forall in HF. specialize (HF p Hp).
  rewrite (contiguous_ends _ _ _ _ Hc Hp) in HF.
  apply leb_not_nan in HF as [[_ Hn]%add_not_nan _].
  by apply ltb_leb, leb_false_ltb.
Qed.

(** C3, as the code has it.  In every result each machine timeline is laid
    out back to back from time 0: the first task starts at 0, each further
    task starts where the previous one ends, each task ends at its start
    plus its build time, and [currentTime] is the end of the last task (0
    when there is none).  Every assigned task ends within the budget; the
    final [currentTime] is within the budget when the machine holds a task
    or the budget is not negative; and start times do not decrease when the
    build times of the catalog convert to the numbers they parse to
    (numbers and plain numeric strings), or just when the build times on
    the machine are not negative. *)
Theorem timelines_are_contiguous orders items machines settings r m tl :
  scheduleData (Some orders) items machines settings = Some r ->
  schedule r !! m = Some tl ->
  contiguous zero (tasks tl) (currentTime tl)
  /\ Forall (fun p => leb (endTime p) (totalWorkMinutes settings) = true)
            (tasks tl)
  /\ (tasks tl <> [] \/ leb zero (totalWorkMinutes settings) = true ->
      leb (currentTime tl) (totalWorkMinutes settings) = true)
  /\ ((forall it, it ∈ items ->
         ToNumber (Item.buildTime it) = parseFloat (Item.buildTime it))
      \/ Forall (fun p => leb zero (Task.buildTime (placed_task p)) = true)
                (tasks tl) ->
      StronglySorted (fun p p' => leb (startTime p) (startTime p') = true)
                     (tasks tl)).
Proof.
  intros Hr Hm.
  pose proof (numeric_catalog_build_times _ _ _ _ _ _ _ Hr Hm) as Hnum.
  apply scheduleData_Some in Hr. subst r.
  destruct (allocate_timelines _ _ (init_timelines_empty machines) _ _ _ Hm)
    as [Hc HF].
  split; [done|]. split; [done|]. split.
  - intros Hcase.
    destruct (contiguous_end _ _ _ Hc) as [[Hnil ->]|(p & Hp & ->)].
    + by destruct Hcase.
    + rewrite Forall_forall in HF. by apply HF.
  - intros Hbt.
    assert (Forall (fun p => leb zero (Task.buildTime (placed_task p)) = true)
                   (tasks tl)) as Hbt' by (destruct Hbt; auto).
    eapply contiguous_sorted; [|exact Hc|exact Hbt'].
    by apply leb_refl.
Qed.

Lemma find_item_None items itemId :
  (forall it, it ∈ items -> Item.id it <> itemId) -> find_item items itemId = None.
Proof.
  unfold find_item. induction items as [|it items IH]; intros H; simpl; [done|].
  destruct (String.eqb (Item.id it) itemId) eqn:E.
  - apply String.eqb_eq in E. destruct (H it); [apply list_elem_of_here|done].
  - apply IH. intros it' Hit'. apply H. by apply list_elem_of_further.
Qed.

Lemma num_or_zero v : num_or (parseFloat v) zero = parsed_or_zero v.
Proof.
  unfold num_or, parsed_or_zero.
  destruct (parseFloat v) as [| |c]; try done.
  simpl. unfold Qc_is_zero. case_bool_decide as Hc; [|done].
  by rewrite Hc.
Qed.

Lemma expand_order_kept items order itemDetails :
  find_item items (Order.itemId order) = Some itemDetails ->
  ToBoolean (Item.buildTime itemDetails) = true ->
  leb (ToNumber (Item.buildTime itemDetails)) zero = false ->
  expand_order items order
  = unit_task itemDetails order <$> seq 0 (Order.quantity order).
Proof.
  intros Hf Hb Hle. unfold expand_order. rewrite Hf, Hb, Hle. simpl.
  unfold unit_task. by rewrite !num_or_zero.
Qed.

(** C8.  An order whose item is not in the catalog, or whose item has a
    build time that is missing (falsy) or compares [<= 0], yields no task
    and no error.  Any other order yields exactly [quantity] tasks, one per
    unit, whose profit is price minus cost with an unparsable price or cost
    counted as 0. *)
Theorem expander_drops_or_emits items order :
  ((forall it, it ∈ items -> Item.id it <> Order.itemId order) ->
     expand_order items order = [])
  /\ (forall itemDetails,
        find_item items (Order.itemId order) = Some itemDetails ->
        ToBoolean (Item.buildTime itemDetails) = false
        \/ leb (ToNumber (Item.buildTime itemDetails)) zero = true ->
        expand_order items order = [])
  /\ (forall itemDetails,
        find_item items (Order.itemId order) = Some itemDetails ->
        ToBoolean (Item.buildTime itemDetails) = true ->
        leb (ToNumber (Item.buildTime itemDetails)) zero = false ->
        length (expand_order items order) = Order.quantity order
        /\ (forall i, (i < Order.quantity order)%nat ->
              expand_order items order !! i
              = Some (unit_task itemDetails order i))
        /\ (forall t, t ∈ expand_order items order ->
              Task.profit t
              = sub (parsed_or_zero (Item.price itemDetails))
                    (parsed_or_zero (Item.cost itemDetails)))).
Proof.
  split; [|split].
  - intros H. unfold expand_order. by rewrite find_item_None.
  - intros it Hf Hbad. unfold expand_order. rewrite Hf.
    by destruct Hbad as [-> | ->]; [|rewrite orb_true_r].
  - intros it Hf Hb Hle. rewrite (expand_order_kept _ _ _ Hf Hb Hle).
    split; [by rewrite length_fmap, length_seq|]. split.
    + intros i Hi. by rewrite list_lookup_fmap, lookup_seq_lt.
    + intros t (i & -> & _)%list_elem_of_fmap. done.
Qed.

(** * Task identities *)

Lemma occurs_app_dash a d : occurs "-" (a +:+ String "-" d).
Proof. induction a as [|c a IH]; simpl; auto. Qed.

Lemma pretty_N_go_no_dash x s :
  ~ occurs "-" s -> ~ occurs "-" (pretty_N_go x s).
Proof.
  revert s. induction (N.lt_wf_0 x) as [x _ IH]; intros s Hs.
  destruct (decide (x = 0)%N) as [->|Hx]; [by rewrite pretty_N_go_0|].
  rewrite pretty_N_go_step by lia. apply IH.
  - apply N.div_lt; lia.
  - simpl. intros [Hc|Hc]; [|done]. revert Hc.
    unfold pretty_N_char. by repeat case_match.
Qed.

Lemma pretty_nat_no_dash (n : nat) : ~ occurs "-" (pretty n).
Proof.
  unfold pretty, pretty_nat, pretty, pretty_N.
  case_decide.
  - simpl. intros [Hc|[]]. discriminate.
  - apply pretty_N_go_no_dash. intros [].
Qed.

Lemma append_dash_inj a a' d d' :
  ~ occurs "-" d -> ~ occurs "-" d' ->
  a +:+ String "-" d = a' +:+ String "-" d' -> a = a' /\ d = d'.
Proof.
  intros Hd Hd'. revert a'.
  induction a as [|c a IH]; intros [|c' a']; simpl; intros H.
  - by injection H.
  - injection H as <- ->. destruct Hd. apply occurs_app_dash.
  - injection H as -> <-. destruct Hd'. apply occurs_app_dash.
  - injection H as -> H. by destruct (IH _ H) as [-> ->].
Qed.

Lemma task_id_inj o o' i j :
  task_id o i = task_id o' j <-> Order.itemId o = Order.itemId o' /\ i = j.
Proof.
  unfold task_id. split.
  - intros H. apply append_dash_inj in H as [Ho Hp];
      [|apply pretty_nat_no_dash..].
    split; [done|]. by apply (inj pretty).
  - by intros [-> ->].
Qed.

Lemma expand_order_ids items order i t :
  expand_order items order !! i = Some t -> Task.id t = task_id order i.
Proof.
  unfold expand_order.
  destruct (find_item _ _) as [it|]; [|done].
  destruct (_ || _); [done|].
  rewrite list_lookup_fmap.
  destruct (seq 0 (Order.quantity order) !! i) as [k|] eqn:Hk; [|done].
  apply lookup_seq in Hk as [-> _]. by intros [= <-].
Qed.

(** C9, as the code has it.  The identity of an expanded task is the text
    [itemId-i] made of the item id of its order and its unit index; it is a
    function of these two alone, and two identities are equal exactly when
    both the item ids and the indices are.  So the units of one order, and
    the units of orders for different items, have distinct identities. *)
Theorem task_identity items :
  (forall order i t,
      expand_order items order !! i = Some t -> Task.id t = task_id order i)
  /\ (forall o o' i j,
        task_id o i = task_id o' j
        <-> Order.itemId o = Order.itemId o' /\ i = j)
  /\ (forall order, NoDup (Task.id <$> expand_order items order))
  /\ (forall o o' t t',
        Order.itemId o <> Order.itemId o' ->
        t ∈ expand_order items o -> t' ∈ expand_order items o' ->
        Task.id t <> Task.id t').
Proof.
  split; [apply expand_order_ids|]. split; [apply task_id_inj|]. split.
  - intros order. apply NoDup_alt. intros i j x Hi Hj.
    rewrite list_lookup_fmap in Hi, Hj.
    destruct (expand_order items order !! i) as [t|] eqn:Hti; [|done].
    destruct (expand_order items order !! j) as [t'|] eqn:Htj; [|done].
    simpl in *. apply expand_order_ids in Hti, Htj.
    assert (task_id order i = task_id order j) as H by congruence.
    by apply task_id_inj in H as [_ ?].
  - intros o o' t t' Hne (i & Hi)%list_elem_of_lookup (j & Hj)%list_elem_of_lookup.
    apply expand_order_ids in Hi, Hj. rewrite Hi, Hj.
    intros H%task_id_inj. by destruct H.
Qed.

(** * Machine names *)

Lemma init_timelines_names machines machines' :
  (forall n, n ∈ machine_names machines <-> n ∈ machine_names machines') ->
  init_timelines machines = init_timelines machines'.
Proof.
  intros H. apply map_eq. intros n. rewrite !init_timelines_lookup.
  destruct (decide (n ∈ machine_names machines)) as [Hn|Hn].
  - by rewrite decide_True by by apply H.
  - rewrite decide_False; [done|]. by rewrite <- H.
Qed.

Lemma init_timelines_dom machines :
  dom (init_timelines machines) = list_to_set (machine_names machines).
Proof.
  apply set_eq. intros n.
  rewrite elem_of_dom, init_timelines_lookup, elem_of_list_to_set.
  case_decide; split; try done.
Qed.

(** C10.  The result has one timeline for each machine name of the pool and
    no other, as many timelines as the pool has distinct names; a machine
    whose name is already in the pool adds nothing: the result with it is
    the result without it. *)
Theorem one_timeline_per_name scheduleOrders items machines settings :
  (forall r,
      scheduleData scheduleOrders items machines settings = Some r ->
      dom (schedule r) = list_to_set (machine_names machines)
      /\ size (schedule r) = length (remove_dups (machine_names machines)))
  /\ (forall duplicate,
        Machine.name duplicate ∈ machine_names machines ->
        scheduleData scheduleOrders items (machines ++ [duplicate]) settings
        = scheduleData scheduleOrders items machines settings).
Proof.
  split.
  - destruct scheduleOrders as [orders|]; [|done].
    intros r ->%scheduleData_Some.
    assert (dom (schedule (allocate (totalWorkMinutes settings)
                             (init_timelines machines)
                             (ranked (allTasks orders items))))
            = list_to_set (machine_names machines)) as Hdom.
    { rewrite allocate_dom. apply init_timelines_dom. }
    split; [done|].
    rewrite <- size_dom, Hdom.
    rewrite <- (size_list_to_set (C:=gset string)
                  (remove_dups (machine_names machines)))
      by apply NoDup_remove_dups.
    f_equal. apply set_eq. intros n.
    by rewrite !elem_of_list_to_set, elem_of_remove_dups.
  - intros dup Hdup. unfold scheduleData.
    destruct scheduleOrders as [orders|]; [|done].
    replace (length (machines ++ [dup]) =? 0)%nat with false
      by (rewrite length_app; simpl; symmetry; apply Nat.eqb_neq; lia).
    replace (length machines =? 0)%nat with false
      by (destruct machines; [by apply elem_of_nil in Hdup|done]).
    rewrite (init_timelines_names (machines ++ [dup]) machines); [done|].
    intros n. unfold machine_names in *.
    rewrite fmap_app, elem_of_app, list_fmap_singleton, list_elem_of_singleton.
    split; [|by left]. by intros [?| ->].
Qed.

(** * Sample scenario B *)

Lemma widget_tasks price cost order :
  Order.itemId order = "item-1" ->
  allTasks [order] [widget price cost]
  = unit_task (widget price cost) order <$> seq 0 (Order.quantity order).
Proof.
  intros Hid. unfold allTasks. simpl flat_map. rewrite app_nil_r.
  apply expand_order_kept.
  - unfold find_item. simpl. by rewrite Hid.
  - reflexivity.
  - by vm_compute.
Qed.

Lemma widget_ranked price cost order :
  Order.itemId order = "item-1" ->
  ranked (allTasks [order] [widget price cost])
  = unit_task (widget price cost) order <$> seq 0 (Order.quantity order).
Proof.
  intros Hid. rewrite (widget_tasks _ _ _ Hid).
  apply (sort_same_key Task.profitPerMinute _
           (Task.profitPerMinute (unit_task (widget price cost) order 0))).
  apply Forall_fmap, Forall_forall. by intros i _.
Qed.

(** C6, as the code has it.  With machines "A" and "B", one item of 100
    minutes allowed on "A" then "B", whatever its price and cost, one order
    of five units and the budget of 480 minutes, the units go to the two
    machines in turn: "A" holds units 0, 2 and 4 at 0-100, 100-200 and
    200-300, "B" holds units 1 and 3 at 0-100 and 100-200, there is no
    other timeline and nothing overflows. *)
Theorem scenario_B_alternates (price cost : jsval) :
  let unit := unit_task (widget price cost) (order_of "order-1" 5) in
  exists r,
    scheduleData (Some [order_of "order-1" 5]) [widget price cost]
                 machinesAB (settings_hours 8) = Some r
    /\ Task.id <$> [unit 0%nat; unit 1%nat; unit 2%nat; unit 3%nat; unit 4%nat]
       = ["item-1-0"; "item-1-1"; "item-1-2"; "item-1-3"; "item-1-4"]
    /\ tasks <$> schedule r !! "A"
       = Some [ mkPlaced (unit 0%nat) (of_Z 0) (of_Z 100);
                mkPlaced (unit 2%nat) (of_Z 100) (of_Z 200);
                mkPlaced (unit 4%nat) (of_Z 200) (of_Z 300) ]
    /\ tasks <$> schedule r !! "B"
       = Some [ mkPlaced (unit 1%nat) (of_Z 0) (of_Z 100);
                mkPlaced (unit 3%nat) (of_Z 100) (of_Z 200) ]
    /\ intervals r "A"
       = [(of_Z 0, of_Z 100); (of_Z 100, of_Z 200); (of_Z 200, of_Z 300)]
    /\ intervals r "B" = [(of_Z 0, of_Z 100); (of_Z 100, of_Z 200)]
    /\ dom (schedule r) = {["A"; "B"]}
    /\ overflowTasks r = [].
Proof.
  intros unit.
  assert (exists profit density, forall i,
            unit i = Task.mk (task_id (order_of "order-1" 5) i) "Widget"
                             (of_Z 100) profit density ["A"; "B"])
    as (profit & density & Hunit).
  { eexists _, _. intros i. reflexivity. }
  eexists. split; [reflexivity|].
  rewrite widget_ranked by done. fold unit.
  cbn [fmap list_fmap seq Order.quantity order_of].
  rewrite !Hunit. clear Hunit unit.
  split; [vm_compute; reflexivity|].
  split; [vm_compute; reflexivity|].
  split; [vm_compute; reflexivity|].
  split; [vm_compute; reflexivity|].
  split; [vm_compute; reflexivity|].
  split; [|vm_compute; reflexivity].
  rewrite allocate_dom, init_timelines_dom. vm_compute. reflexivity.
Qed.

(** The sample run: the gadgets rank first and fill "B" up to 150, the
    widgets then go where they finish first, and the last widget, which
    would finish at 500 on "A", overflows. *)
Example sample_run :
  Task.id <$> ranked (allTasks sample_orders sample_items)
  = ["item-2-0"; "item-2-1"; "item-2-2"; "item-1-0"; "item-1-1"; "item-1-2";
     "item-1-3"; "item-1-4"; "item-1-5"; "item-1-6"; "item-1-7"]
  /\ intervals sample_result "A"
     = [(of_Z 0, of_Z 100); (of_Z 100, of_Z 200); (of_Z 200, of_Z 300);
        (of_Z 300, of_Z 400)]
  /\ intervals sample_result "B"
     = [(of_Z 0, of_Z 50); (of_Z 50, of_Z 100); (of_Z 100, of_Z 150);
        (of_Z 150, of_Z 250); (of_Z 250, of_Z 350); (of_Z 350, of_Z 450)]
  /\ Task.id <$> overflowTasks sample_result = ["item-1-7"]
  /\ totalProfit sample_result = of_Z 87.
Proof. repeat split; vm_compute; reflexivity. Qed.

(** * Inputs on which the specification and the code part *)

(** Scenario B as the specification tells it (four units on "A", then the
    fifth on "B") is not what the allocator produces. *)
Lemma scenario_B_as_specified_fails :
  ~ exists r,
      scheduleData (Some [order_of "order-1" 5]) [widget (JStr "10") (JStr "4")]
                   machinesAB (settings_hours 8) = Some r
      /\ intervals r "A"
         = [(of_Z 0, of_Z 100); (of_Z 100, of_Z 200); (of_Z 200, of_Z 300);
            (of_Z 300, of_Z 400)]
      /\ intervals r "B" = [(of_Z 0, of_Z 100)].
Proof.
  intros (r & Hr & HA & _). apply scheduleData_Some in Hr. subst r.
  apply (f_equal length) in HA. vm_compute in HA. discriminate.
Qed.

Section rounding.
Import PrimFloat.
Set Warnings "-inexact-float".


End rounding.

(** With [workHours = -1] the budget is -60 minutes: nothing is scheduled,
    and the idle machine "B" ends with [currentTime = 0], above the budget. *)
Lemma negative_budget_counterexample :
  exists r tl,
    scheduleData (Some [order_of "order-1" 5]) [widget (JStr "10") (JStr "4")]
                 machinesAB (settings_hours (-1)) = Some r
    /\ schedule r !! "B" = Some tl
    /\ totalWorkMinutes (settings_hours (-1)) = of_Z (-60)
    /\ currentTime tl = of_Z 0
    /\ leb (currentTime tl) (totalWorkMinutes (settings_hours (-1))) = false.
Proof.
  eexists _, _. split; [reflexivity|].
  split; [vm_compute; reflexivity|]. by vm_compute.
Qed.

(** Why the order of start times is stated for catalogs whose build times
    convert to the numbers they parse to.  The item form stores what a
    numeric input field holds; a stored text such as ["-100min"], which no
    such field produces, converts to [NaN], passes the guard of the
    expander, and parses to -100. *)
Example build_time_with_trailing_text :
  let items :=
    [Item.mk "item-1" "Widget" (JStr "-100min") (JStr "10") (JStr "4")
             (Some ["A"])] in
  ToNumber (JStr "-100min") = NaN
  /\ parseFloat (JStr "-100min") = of_Z (-100)
  /\ exists r,
       scheduleData (Some [order_of "order-1" 2]) items machinesAB
                    (settings_hours 8) = Some r
       /\ intervals r "A"
          = [(of_Z 0, of_Z (-100)); (of_Z (-100), of_Z (-200))].
Proof.
  split; [by vm_compute|]. split; [by vm_compute|].
  eexists. split; [reflexivity|]. by vm_compute.
Qed.

(** With [workHours = 0] the budget is 480 minutes, not [0 * 60]. *)
Lemma zero_hours_counterexample :
  Settings.workHours (settings_hours 0) = JNum (of_Z 0)
  /\ totalWorkMinutes (settings_hours 0) = of_Z 480
  /\ mul (of_Z 0) (of_Z 60) = of_Z 0
  /\ totalWorkMinutes (settings_hours 0) <> mul (of_Z 0) (of_Z 60).
Proof. repeat split; compute_done. Qed.

(** Two orders of the same item give their units the same identities. *)
Lemma same_item_orders_share_identities :
  let items := [widget (JStr "10") (JStr "4")] in
  let o1 := order_of "order-1" 1 in
  let o2 := order_of "order-2" 1 in
  Order.id o1 <> Order.id o2
  /\ exists t1 t2,
       t1 ∈ expand_order items o1 /\ t2 ∈ expand_order items o2
       /\ Task.id t1 = Task.id t2.
Proof.
  simpl. split; [done|].
  eexists _, _. split; [|split].
  - vm_compute. apply list_elem_of_here.
  - vm_compute. apply list_elem_of_here.
  - reflexivity.
Qed.

(** * The theorems at the sample input *)

Lemma sample_scheduleData :
  scheduleData (Some sample_orders) sample_items machinesAB (settings_hours 8)
  = Some sample_result.
Proof. vm_compute. reflexivity. Defined.

Lemma conservation_witness :
  length (allTasks sample_orders sample_items)
  = (length (assignedTasks sample_result)
     + length (overflowTasks sample_result))%nat
  /\ assignedTasks sample_result ++ overflowTasks sample_result
     ≡ₚ allTasks sample_orders sample_items.
Proof.
  apply (conservation sample_orders sample_items machinesAB (settings_hours 8)).
  exact sample_scheduleData.
Defined.

Lemma timelines_are_contiguous_witness :
  contiguous zero (tasks (sample_timeline "B")) (currentTime (sample_timeline "B"))
  /\ Forall (fun p => leb (endTime p) (totalWorkMinutes (settings_hours 8)) = true)
            (tasks (sample_timeline "B"))
  /\ leb (currentTime (sample_timeline "B")) (totalWorkMinutes (settings_hours 8))
     = true
  /\ StronglySorted (fun p p' => leb (startTime p) (startTime p') = true)
                    (tasks (sample_timeline "B")).
Proof.
  destruct (timelines_are_contiguous sample_orders sample_items machinesAB
              (settings_hours 8) sample_result "B" (sample_timeline "B"))
    as (Hc & Hend & Hcur & Hsorted).
  - exact sample_scheduleData.
  - vm_compute. reflexivity.
  - split; [exact Hc|]. split; [exact Hend|]. split.
    + apply Hcur. right. vm_compute. reflexivity.
    + apply Hsorted. left. apply Forall_forall. unfold sample_items.
      repeat constructor; vm_compute; reflexivity.
Defined.


Lemma ranker_is_stable_witness :
  StronglySorted (descending Task.profitPerMinute)
                 (ranked (allTasks sample_orders sample_items)).
Proof.
  destruct (ranker_is_stable (allTasks sample_orders sample_items))
    as (_ & _ & Hsorted).
  apply Hsorted. vm_compute. repeat constructor; discriminate.
Defined.

Lemma budget_from_workHours_witness :
  totalWorkMinutes (settings_hours 8)
  = Fin (Q2Qc (inject_Z 8) * Q2Qc (inject_Z 60))%Qc
  /\ totalWorkMinutes (Settings.mk JUndefined JUndefined) = of_Z 480.
Proof.
  split.
  - destruct (budget_from_workHours (settings_hours 8)) as (_ & Hlinear & _).
    apply Hlinear; [reflexivity|]. by vm_compute.
  - destruct (budget_from_workHours (Settings.mk JUndefined JUndefined))
      as (_ & _ & Hdefault).
    apply Hdefault. left. reflexivity.
Defined.

Lemma expander_drops_or_emits_witness :
  expand_order sample_items (Order.mk "order-3" "item-3" "Gone" 2) = []
  /\ expand_order
       [Item.mk "item-1" "Widget" JUndefined (JStr "10") (JStr "4") None]
       (order_of "order-1" 5) = []
  /\ length (expand_order [widget (JStr "ten") (JStr "4")]
                          (order_of "order-1" 5)) = 5%nat
  /\ (forall t, t ∈ expand_order [widget (JStr "ten") (JStr "4")]
                                 (order_of "order-1" 5) ->
        Task.profit t = sub (parsed_or_zero (JStr "ten")) (parsed_or_zero (JStr "4"))).
Proof.
  split; [|split].
  - destruct (expander_drops_or_emits sample_items
                (Order.mk "order-3" "item-3" "Gone" 2)) as (Habsent & _).
    apply Habsent. apply Forall_forall. unfold sample_items.
    repeat constructor; by vm_compute.
  - destruct (expander_drops_or_emits
                [Item.mk "item-1" "Widget" JUndefined (JStr "10") (JStr "4") None]
                (order_of "order-1" 5)) as (_ & Hdropped & _).
    eapply Hdropped.
    + vm_compute. reflexivity.
    + left. reflexivity.
  - destruct (expander_drops_or_emits [widget (JStr "ten") (JStr "4")]
                (order_of "order-1" 5)) as (_ & _ & Hkept).
    destruct (Hkept (widget (JStr "ten") (JStr "4"))) as (Hlen & _ & Hprofit).
    + vm_compute. reflexivity.
    + reflexivity.
    + by vm_compute.
    + split; [exact Hlen|exact Hprofit].
Defined.

Lemma task_identity_witness :
  Task.id (unit_task gadget (Order.mk "order-2" "item-2" "Gadget" 3) 1)
  = task_id (Order.mk "order-2" "item-2" "Gadget" 3) 1
  /\ Task.id (unit_task (widget (JStr "10") (JStr "4")) (order_of "order-1" 8) 0)
     <> Task.id (unit_task gadget (Order.mk "order-2" "item-2" "Gadget" 3) 0).
Proof.
  destruct (task_identity sample_items) as (Hid & _ & _ & Hother). split.
  - apply (Hid (Order.mk "order-2" "item-2" "Gadget" 3) 1%nat).
    vm_compute. reflexivity.
  - apply (Hother (order_of "order-1" 8)
             (Order.mk "order-2" "item-2" "Gadget" 3)).
    + by vm_compute.
    + vm_compute. apply list_elem_of_here.
    + vm_compute. apply list_elem_of_here.
Defined.

Lemma one_timeline_per_name_witness :
  dom (schedule sample_result) = list_to_set (machine_names machinesAB)
  /\ scheduleData (Some sample_orders) sample_items
       (machinesAB ++ [Machine.mk "machine-3" "A"]) (settings_hours 8)
     = scheduleData (Some sample_orders) sample_items machinesAB
         (settings_hours 8).
Proof.
  destruct (one_timeline_per_name (Some sample_orders) sample_items machinesAB
              (settings_hours 8)) as [Hdom Hdup].
  split.
  - apply Hdom. exact sample_scheduleData.
  - apply Hdup. vm_compute. apply list_elem_of_here.
Defined.

Lemma allocator_picks_earliest_finish_witness :
  let task := unit_task (widget (JStr "10") (JStr "4")) (order_of "order-1" 5) 0 in
  let st := mkResult (init_timelines machinesAB) zero [] in
  exists m f mt,
    is_earliest (schedule st) task m f
    /\ m <> "" /\ leb f (of_Z 480) = true
    /\ schedule st !! m = Some mt
    /\ allocate_step (of_Z 480) st task = placed_on st task m f mt.
Proof.
  intros task st.
  destruct (allocator_picks_earliest_finish (of_Z 480) st task)
    as [Hplaced|[_ Hover]]; [exact Hplaced|].
  apply (f_equal (fun r => length (overflowTasks r))) in Hover.
  vm_compute in Hover. discriminate.
Defined.

(** The first widget of scenario B goes to "A", the first of the two
    machines to reach the finish time 100. *)
Example first_widget_goes_to_A :
  let task := unit_task (widget (JStr "10") (JStr "4")) (order_of "order-1" 5) 0 in
  let st := mkResult (init_timelines machinesAB) zero [] in
  best_machine (schedule st) task = (Some "A", of_Z 100)
  /\ allocate_step (of_Z 480) st task
     = placed_on st task "A" (of_Z 100) empty_timeline.
Proof. split; vm_compute; reflexivity. Qed.

(** * Further properties of the allocator *)

Section more_run_facts.
Context (total : number) (T : gmap string timeline).

(** Induction over a run that keeps what decided each turn. *)
Lemma allocate_ind_choice (P : result -> list Task.t -> Prop) :
  P (mkResult T zero []) [] ->
  (forall st seen task mt m f,
      P st seen ->
      is_earliest (schedule st) task m f -> m <> "" ->
      leb f total = true ->
      schedule st !! m = Some mt ->
      f = add (currentTime mt) (Task.buildTime task) ->
      P (placed_on st task m f mt) (seen ++ [task])) ->
  (forall st seen task,
      P st seen ->
      (forall m f, is_earliest (schedule st) task m f ->
                   m = "" \/ leb f total = false) ->
      P (push_overflow st task) (seen ++ [task])) ->
  forall l, P (allocate total T l) l.
Proof.
  intros Hinit Hplace Hover l. induction l as [|task l IH] using rev_ind.
  - exact Hinit.
  - rewrite allocate_snoc.
    destruct (allocate_step_spec total (allocate total T l) task)
      as [(m & f & mt & He & Hn & Hle & Hmt & Hf & ->)|[Hnone ->]].
    + by eapply Hplace.
    + by apply Hover.
Qed.

(** A task is only ever put on a machine of the pool that its item allows. *)
Lemma allocate_eligible l m tl p :
  (forall m tl, T !! m = Some tl -> tl = empty_timeline) ->
  schedule (allocate total T l) !! m = Some tl -> p ∈ tasks tl ->
  m ∈ Task.allowedMachines (placed_task p) /\ m <> "".
Proof.
  intros HT. revert m tl p.
  apply (allocate_ind_choice
           (fun st _ => forall m tl p, schedule st !! m = Some tl ->
              p ∈ tasks tl ->
              m ∈ Task.allowedMachines (placed_task p) /\ m <> "")).
  - simpl. intros m tl p Hm. rewrite (HT m tl Hm). simpl.
    intros Hp. by apply elem_of_nil in Hp.
  - intros st seen task mt m f IH (i & Hi & _) Hne _ Hm _ m' tl p. simpl.
    destruct (decide (m = m')) as [<-|Hmm].
    + rewrite lookup_insert_eq. intros [= <-]. simpl.
      intros [Hp|Hp]%elem_of_app; [by eapply IH|].
      apply list_elem_of_singleton in Hp as ->. simpl.
      split; [|done]. by eapply list_elem_of_lookup_2.
    + rewrite lookup_insert_ne by done. apply IH.
  - intros st seen task IH _. exact IH.
Qed.

(** The timelines and the overflow list keep the order of the sequence the
    allocator walks. *)
Lemma allocate_sublist l :
  (forall m tl, T !! m = Some tl -> tl = empty_timeline) ->
  (forall m tl, schedule (allocate total T l) !! m = Some tl ->
     (placed_task <$> tasks tl) `sublist_of` l)
  /\ overflowTasks (allocate total T l) `sublist_of` l.
Proof.
  intros HT.
  apply (allocate_ind total
           (fun st seen =>
              (forall m tl, schedule st !! m = Some tl ->
                 (placed_task <$> tasks tl) `sublist_of` seen)
              /\ overflowTasks st `sublist_of` seen)).
  - simpl. split; [|done]. intros m tl Hm. rewrite (HT m tl Hm). simpl.
    constructor.
  - intros st seen task mt m f [IHs IHo] Hm _ _. simpl. split.
    + intros m' tl. destruct (decide (m = m')) as [<-|Hmm].
      * rewrite lookup_insert_eq. intros [= <-]. simpl.
        rewrite fmap_app. apply sublist_app; [by eapply IHs|done].
      * rewrite lookup_insert_ne by done. intros Hm'.
        apply sublist_inserts_r. by eapply IHs.
    + by apply sublist_inserts_r.
  - intros st seen task [IHs IHo]. simpl. split.
    + intros m tl Hm. apply sublist_inserts_r. by eapply IHs.
    + by apply sublist_app.
Qed.

End more_run_facts.

Lemma StronglySorted_sublist {A} (R : relation A) (l1 l2 : list A) :
  l1 `sublist_of` l2 -> StronglySorted R l2 -> StronglySorted R l1.
Proof.
  induction 1 as [|x l1 l2 Hsub IH|x l1 l2 Hsub IH]; intros Hs.
  - constructor.
  - apply StronglySorted_inv in Hs as [Hs Hx].
    constructor; [by apply IH|].
    rewrite Forall_forall in Hx |- *. intros y Hy. apply Hx.
    by eapply sublist_subseteq.
  - apply StronglySorted_inv in Hs as [Hs _]. by apply IH.
Qed.

(** A task is only ever scheduled on a machine that is in the pool and that
    its item allows; a task none of whose allowed machines is in the pool
    (an item without machines, or whose machines were deleted) overflows. *)
Theorem only_on_allowed_machines orders items machines settings r :
  scheduleData (Some orders) items machines settings = Some r ->
  (forall m tl p,
      schedule r !! m = Some tl -> p ∈ tasks tl ->
      m ∈ Task.allowedMachines (placed_task p)
      /\ m ∈ machine_names machines)
  /\ (forall t,
        t ∈ allTasks orders items ->
        (forall m, m ∈ Task.allowedMachines t -> m ∉ machine_names machines) ->
        t ∈ overflowTasks r /\ t ∉ assignedTasks r).
Proof.
  intros Hr.
  assert (forall m tl p,
             schedule r !! m = Some tl -> p ∈ tasks tl ->
             m ∈ Task.allowedMachines (placed_task p)
             /\ m ∈ machine_names machines) as Hplaced.
  { intros m tl p Hm Hp. pose proof Hr as ->%scheduleData_Some. split.
    - by eapply allocate_eligible; [apply init_timelines_empty|..].
    - assert (m ∈ dom (init_timelines machines)) as Hdom.
      { erewrite <- allocate_dom. by apply elem_of_dom. }
      by rewrite init_timelines_dom, elem_of_list_to_set in Hdom. }
  split; [done|].
  intros t Ht Hnone.
  assert (t ∉ assignedTasks r) as Hnot.
  { intros (p & -> & Hp)%list_elem_of_fmap.
    apply elem_of_assigned in Hp as (m & tl & Hm & Hp).
    destruct (Hplaced m tl p Hm Hp) as [Hallowed Hpool].
    by apply (Hnone m). }
  split; [|done].
  rewrite <- (scheduleData_conservation _ _ _ _ _ Hr) in Ht.
  by apply elem_of_app in Ht as [?|?].
Qed.

(** Each timeline and the overflow list list their tasks in ranked order;
    so, no [profitPerMinute] being [NaN], the tasks of a machine run in
    order of descending [profitPerMinute]. *)
Theorem timelines_follow_the_ranking orders items machines settings r :
  scheduleData (Some orders) items machines settings = Some r ->
  (forall m tl, schedule r !! m = Some tl ->
     (placed_task <$> tasks tl) `sublist_of` ranked (allTasks orders items))
  /\ overflowTasks r `sublist_of` ranked (allTasks orders items)
  /\ (Forall (fun t => Task.profitPerMinute t <> NaN) (allTasks orders items) ->
      forall m tl, schedule r !! m = Some tl ->
        StronglySorted (descending Task.profitPerMinute)
                       (placed_task <$> tasks tl)).
Proof.
  intros ->%scheduleData_Some.
  destruct (allocate_sublist (totalWorkMinutes settings)
              (init_timelines machines) (ranked (allTasks orders items))
              (init_timelines_empty machines)) as [Hs Ho].
  split; [done|]. split; [done|].
  intros Hnan m tl Hm.
  eapply StronglySorted_sublist; [by eapply Hs|].
  by apply (sort_descending Task.profitPerMinute).
Qed.

Lemma leb_infinity_l z : leb (Inf false) z = true -> z = Inf false.
Proof. destruct z as [|[]|c]; cbv [leb cmp]; congruence. Qed.

Lemma leb_false_nonneg x : x <> NaN -> leb x zero = false -> leb zero x = true.
Proof.
  intros Hx Hle. apply ltb_leb, leb_false_ltb; [done| |done]. discriminate.
Qed.

(** A later start cannot make a task fit that did not fit before. *)
Lemma add_leb_mono x x' y z :
  leb zero x = true -> leb x x' = true ->
  leb (add x' y) z = true -> leb (add x y) z = true.
Proof.
  destruct x as [|[]|a], x' as [|[]|a'], y as [|[]|b], z as [|[]|c];
    try (cbv [ltb leb cmp zero of_Z add]; simpl; congruence);
    try reflexivity.
  simpl add. rewrite !leb_Fin. intros _ Ha Hc.
  eapply Qcle_trans; [|exact Hc].
  apply Qcplus_le_compat; [done|apply Qcle_refl].
Qed.

Section maximality.
Context (total : number) (T : gmap string timeline).
Hypothesis T_empty : forall m tl, T !! m = Some tl -> tl = empty_timeline.
Hypothesis T_named : T !! "" = None.
Hypothesis total_finite : total <> Inf false.

(** When a task overflows, no machine it may use could have taken it. *)
Lemma overflow_no_candidate st task m tl :
  dom (schedule st) = dom T ->
  (forall m f, is_earliest (schedule st) task m f ->
               m = "" \/ leb f total = false) ->
  m ∈ Task.allowedMachines task -> schedule st !! m = Some tl ->
  leb (add (currentTime tl) (Task.buildTime task)) total = false.
Proof.
  intros Hdom Hnone (j & Hj)%list_elem_of_lookup Hm.
  set (f' := add (currentTime tl) (Task.buildTime task)).
  assert (finish_on (schedule st) task m = Some f') as Hf'.
  { unfold finish_on. by rewrite Hm. }
  destruct (leb f' total) eqn:Hle; [exfalso|done].
  assert (f' <> NaN) as Hnan by by apply leb_not_nan in Hle as [??].
  assert (ltb f' (Inf false) = true) as Hlt.
  { destruct f' as [|[]|c]; try done. by apply leb_infinity_l in Hle. }
  destruct (best_machine (schedule st) task) as [[b|] f] eqn:Hb.
  - pose proof (best_machine_spec _ _ _ _ Hb) as Hbest.
    destruct (Hnone b f Hbest) as [->|Hfalse].
    + destruct Hbest as (_ & _ & Hfin & _).
      apply finish_on_Some in Hfin as (mt & Hmt & _).
      assert ("" ∈ dom T) as Hin
        by (rewrite <- Hdom; by apply elem_of_dom).
      apply elem_of_dom in Hin as [? Hin]. by rewrite T_named in Hin.
    + destruct Hbest as (i & _ & _ & _ & Hall).
      destruct (Hall j m f' Hj Hf') as [?|Hcmp]; [done|].
      assert (leb f f' = true) as Hff'
        by (destruct (decide (j < i)%nat); [by apply ltb_leb|done]).
      by rewrite (leb_trans _ _ _ Hff' Hle) in Hfalse.
  - pose proof (best_machine_scanned (schedule st) task) as [Hmin Hbest].
    rewrite Hb in Hmin, Hbest. simpl in Hmin, Hbest. subst f.
    by rewrite (Hmin j m f' Hj Hf') in Hlt.
Qed.

(** The run leaves no overflow task that would still fit at the end of a
    machine it may use. *)
Lemma allocate_maximal l :
  Forall (fun t => leb (Task.buildTime t) zero = false) l ->
  forall t m tl,
    t ∈ overflowTasks (allocate total T l) ->
    m ∈ Task.allowedMachines t ->
    schedule (allocate total T l) !! m = Some tl ->
    leb (add (currentTime tl) (Task.buildTime t)) total = false.
Proof.
  intros Hl.
  cut (Forall (fun t => leb (Task.buildTime t) zero = false) l ->
       dom (schedule (allocate total T l)) = dom T
       /\ (forall m tl, schedule (allocate total T l) !! m = Some tl ->
             leb zero (currentTime tl) = true)
       /\ (forall t m tl,
             t ∈ overflowTasks (allocate total T l) ->
             m ∈ Task.allowedMachines t ->
             schedule (allocate total T l) !! m = Some tl ->
             leb (add (currentTime tl) (Task.buildTime t)) total = false)).
  { intros H. by apply H. }
  clear Hl.
  apply (allocate_ind_choice total T
           (fun st seen =>
              Forall (fun t => leb (Task.buildTime t) zero = false) seen ->
              dom (schedule st) = dom T
              /\ (forall m tl, schedule st !! m = Some tl ->
                    leb zero (currentTime tl) = true)
              /\ (forall t m tl,
                    t ∈ overflowTasks st ->
                    m ∈ Task.allowedMachines t ->
                    schedule st !! m = Some tl ->
                    leb (add (currentTime tl) (Task.buildTime t)) total
                    = false))).
  - intros _. simpl. split; [done|]. split.
    + intros m tl Hm. by rewrite (T_empty m tl Hm).
    + intros t m tl Ht. by apply elem_of_nil in Ht.
  - intros st seen task mt m f IH _ _ Hle Hm -> Hseen.
    apply Forall_app in Hseen as [Hseen Htask].
    apply Forall_inv in Htask. simpl in Htask.
    destruct (IH Hseen) as (Hdom & Hpos & Hmax).
    assert (leb zero (Task.buildTime task) = true) as Hbt.
    { apply leb_false_nonneg; [|done].
      by apply leb_not_nan in Hle as [[_ ?]%add_not_nan _]. }
    destruct (leb_add_nonneg (currentTime mt) (Task.buildTime task))
      as [Hstep Hnn]; [by eapply Hpos|done|].
    simpl. split; [|split].
    + rewrite dom_insert_lookup_L; [done|by eexists].
    + intros m' tl. destruct (decide (m = m')) as [<-|Hmm].
      * rewrite lookup_insert_eq. by intros [= <-].
      * rewrite lookup_insert_ne by done. apply Hpos.
    + intros t m' tl Ht Hallowed.
      destruct (decide (m = m')) as [<-|Hmm].
      * rewrite lookup_insert_eq. intros [= <-]. simpl.
        destruct (leb (add _ (Task.buildTime t)) total) eqn:E; [|done].
        rewrite <- (Hmax t m mt Ht Hallowed Hm).
        symmetry. eapply add_leb_mono; [|exact Hstep|exact E].
        by eapply Hpos.
      * rewrite lookup_insert_ne by done. by apply Hmax.
  - intros st seen task IH Hnone Hseen.
    apply Forall_app in Hseen as [Hseen _].
    destruct (IH Hseen) as (Hdom & Hpos & Hmax).
    simpl. split; [done|]. split; [done|].
    intros t m tl [Ht|Ht]%elem_of_app Hallowed Hm; [by eapply Hmax|].
    apply list_elem_of_singleton in Ht as ->.
    by eapply overflow_no_candidate.
Qed.

End maximality.

Lemma ranked_build_times orders items :
  (forall it, it ∈ items ->
     ToNumber (Item.buildTime it) = parseFloat (Item.buildTime it)) ->
  Forall (fun t => leb (Task.buildTime t) zero = false)
         (ranked (allTasks orders items)).
Proof.
  intros Hnum. apply Forall_forall. intros t Ht.
  rewrite ranked_perm in Ht.
  destruct (allTasks_build_time _ _ _ Ht) as (it & Hit & -> & Hle).
  by rewrite <- (Hnum it Hit).
Qed.

(** The schedule is full: with a catalog whose build times are numbers or
    numeric strings, no machine without a name and a budget that is not
    infinite, a task in the overflow list does not fit at the end of any
    machine its item allows. *)
Theorem overflow_tasks_do_not_fit orders items machines settings r :
  scheduleData (Some orders) items machines settings = Some r ->
  (forall it, it ∈ items ->
     ToNumber (Item.buildTime it) = parseFloat (Item.buildTime it)) ->
  "" ∉ machine_names machines ->
  totalWorkMinutes settings <> Inf false ->
  forall t m tl,
    t ∈ overflowTasks r -> m ∈ Task.allowedMachines t ->
    schedule r !! m = Some tl ->
    leb (add (currentTime tl) (Task.buildTime t)) (totalWorkMinutes settings)
    = false.
Proof.
  intros ->%scheduleData_Some Hnum Hnames Hfin.
  apply allocate_maximal; try done.
  - apply init_timelines_empty.
  - rewrite init_timelines_lookup. by rewrite decide_False.
  - by apply ranked_build_times.
Qed.

Lemma contiguous_busy_time ps : forall s e,
  contiguous s ps e ->
  e = foldl (fun sum p => add sum (Task.buildTime (placed_task p))) s ps.
Proof.
  induction ps as [|p ps IH]; intros s e; simpl; [done|].
  intros (Hs & He & Hrest). rewrite (IH _ _ Hrest), He, Hs. done.
Qed.

(** A machine is busy without a gap: its [currentTime] is the build times
    of its tasks added up from 0 in the order of the timeline, and with a
    task on it that sum is within the budget. *)
Theorem busy_time_is_currentTime orders items machines settings r m tl :
  scheduleData (Some orders) items machines settings = Some r ->
  schedule r !! m = Some tl ->
  currentTime tl = busy_time (tasks tl)
  /\ (tasks tl <> [] ->
      leb (busy_time (tasks tl)) (totalWorkMinutes settings) = true).
Proof.
  intros ->%scheduleData_Some Hm.
  destruct (allocate_timelines _ _ (init_timelines_empty machines) _ _ _ Hm)
    as [Hc HF].
  assert (currentTime tl = busy_time (tasks tl)) as Hbusy.
  { exact (contiguous_busy_time _ _ _ Hc). }
  split; [done|]. intros Hne. rewrite <- Hbusy.
  destruct (contiguous_end _ _ _ Hc) as [[Hnil _]|(p & Hp & ->)]; [done|].
  rewrite Forall_forall in HF. by apply HF.
Qed.

Lemma sublist_same_length {A} (l1 l2 : list A) :
  l1 `sublist_of` l2 -> length l2 <= length l1 -> l1 = l2.
Proof.
  induction 1 as [|x l1 l2 Hsub IH|x l1 l2 Hsub IH]; simpl; intros Hlen.
  - done.
  - f_equal. apply IH. lia.
  - apply sublist_length in Hsub. lia.
Qed.

(** No task longer than the budget is ever scheduled (the catalog's build
    times being numbers or numeric strings); so with a budget that is zero
    or negative every task overflows, in ranked order, and every machine
    stays idle. *)
Theorem long_tasks_overflow orders items machines settings r :
  scheduleData (Some orders) items machines settings = Some r ->
  (forall it, it ∈ items ->
     ToNumber (Item.buildTime it) = parseFloat (Item.buildTime it)) ->
  (forall m tl p, schedule r !! m = Some tl -> p ∈ tasks tl ->
     ltb zero (Task.buildTime (placed_task p)) = true
     /\ leb (Task.buildTime (placed_task p)) (totalWorkMinutes settings) = true)
  /\ (leb (totalWorkMinutes settings) zero = true ->
      (forall m tl, schedule r !! m = Some tl -> tl = empty_timeline)
      /\ overflowTasks r = ranked (allTasks orders items)
      /\ totalProfit r = zero).
Proof.
  intros Hr Hnum.
  assert (forall m tl p, schedule r !! m = Some tl -> p ∈ tasks tl ->
            ltb zero (Task.buildTime (placed_task p)) = true
            /\ leb (Task.buildTime (placed_task p)) (totalWorkMinutes settings)
               = true) as Hfit.
  { intros m tl p Hm Hp.
    pose proof (numeric_catalog_build_times _ _ _ _ _ _ _ Hr Hm Hnum) as Hbt.
    pose proof Hr as ->%scheduleData_Some.
    destruct (allocate_timelines _ _ (init_timelines_empty machines) _ _ _ Hm)
      as [Hc HF].
    destruct (contiguous_sorted zero _ _ (leb_refl zero ltac:(done)) Hc Hbt)
      as [Hstart _].
    rewrite Forall_forall in HF, Hstart, Hbt.
    specialize (HF p Hp). specialize (Hstart p Hp). specialize (Hbt p Hp).
    rewrite (contiguous_ends _ _ _ _ Hc Hp) in HF.
    split.
    - destruct (allocate_sublist (totalWorkMinutes settings)
                  (init_timelines machines) (ranked (allTasks orders items))
                  (init_timelines_empty machines)) as [Hs _].
      assert (placed_task p ∈ ranked (allTasks orders items)) as Hin.
      { eapply sublist_subseteq; [by eapply Hs|].
        by apply list_elem_of_fmap_2. }
      pose proof (ranked_build_times orders items Hnum) as Hall.
      rewrite Forall_forall in Hall.
      apply leb_false_ltb; [by apply leb_not_nan in Hbt as [??]|done|].
      by apply Hall.
    - rewrite <- (add_zero_l (Task.buildTime (placed_task p))).
      eapply add_leb_mono; [|exact Hstart|exact HF]. by apply leb_refl. }
  split; [done|]. intros Hneg.
  assert (forall m tl, schedule r !! m = Some tl -> tasks tl = []) as Hidle.
  { intros m tl Hm. destruct (tasks tl) as [|p ps] eqn:Hps; [done|].
    destruct (Hfit m tl p Hm) as [Hpos Hle];
      [rewrite Hps; apply list_elem_of_here|].
    pose proof (leb_trans _ _ _ Hle Hneg) as Hbad.
    apply leb_ltb_false in Hbad. congruence. }
  pose proof (scheduleData_conservation _ _ _ _ _ Hr) as Hcons.
  pose proof Hr as ->%scheduleData_Some.
  set (r := allocate _ _ _) in *.
  assert (assignedTasks r = []) as Hnone.
  { unfold assignedTasks. by rewrite (assigned_empty _ Hidle). }
  split; [|split].
  - intros m tl Hm.
    destruct (allocate_timelines _ _ (init_timelines_empty machines) _ _ _ Hm)
      as [Hc _].
    pose proof (Hidle m tl Hm) as Hnil. rewrite Hnil in Hc. simpl in Hc.
    destruct tl as [ts c]. simpl in *. by subst.
  - destruct (allocate_sublist (totalWorkMinutes settings)
                (init_timelines machines) (ranked (allTasks orders items))
                (init_timelines_empty machines)) as [_ Ho].
    apply sublist_same_length; [exact Ho|].
    rewrite Hnone in Hcons. simpl in Hcons.
    by rewrite (Permutation_length Hcons), (Permutation_length (ranked_perm _)).
  - destruct (allocate_placements (totalWorkMinutes settings)
                (init_timelines machines) (ranked (allTasks orders items))
                (T_no_tasks _ (init_timelines_empty machines)))
      as [Hsum Hperm].
    fold r in Hsum, Hperm. rewrite Hnone in Hperm.
    apply Permutation_nil_r in Hperm. by rewrite Hsum, Hperm.
Qed.

(** * The overflow report *)

Lemma count_named_snoc n l t :
  count_named n (l ++ [t])
  = if decide (Task.name t = n) then S (count_named n l) else count_named n l.
Proof.
  unfold count_named. rewrite filter_app, length_app, filter_cons.
  case_decide; simpl; lia.
Qed.

Lemma count_name_lookup_ne acc t n :
  Task.name t <> n -> count_name acc t !! n = acc !! n.
Proof.
  intros Hne. unfold count_name.
  destruct (acc !! Task.name t) as [[k|f k]|].
  - by rewrite lookup_insert_ne.
  - by rewrite lookup_insert_ne.
  - destruct (String.eqb _ _); [done|].
    destruct (bool_decide _); by rewrite lookup_insert_ne.
Qed.

Lemma count_name_lookup_eq acc t k :
  acc !! Task.name t = report_entry (Task.name t) k ->
  count_name acc t !! Task.name t = report_entry (Task.name t) (S k).
Proof.
  intros Hacc. unfold count_name. rewrite Hacc. unfold report_entry.
  destruct k as [|k].
  - destruct (String.eqb _ _) eqn:Hp; [by rewrite Hacc|].
    destruct (bool_decide _); by rewrite lookup_insert_eq.
  - destruct (String.eqb _ _) eqn:Hp.
    { rewrite Hacc. unfold report_entry. by rewrite Hp. }
    destruct (bool_decide _); by rewrite lookup_insert_eq.
Qed.

Lemma foldl_count_name_lookup l n :
  foldl count_name ∅ l !! n = report_entry n (count_named n l).
Proof.
  induction l as [|t l IH] using rev_ind.
  - cbn [foldl]. by rewrite lookup_empty.
  - rewrite foldl_snoc, count_named_snoc.
    destruct (decide (Task.name t = n)) as [<-|Hne].
    + by apply count_name_lookup_eq.
    + by rewrite count_name_lookup_ne.
Qed.

Lemma sum_list_perm (l1 l2 : list nat) : l1 ≡ₚ l2 -> sum_list l1 = sum_list l2.
Proof. induction 1; simpl; lia. Qed.

Lemma listed_units_insert (acc : gmap string counted) n c :
  (listed_units (<[n := c]> acc) + from_option units 0 (acc !! n)
   = listed_units acc + units c)%nat.
Proof.
  unfold listed_units.
  rewrite <- insert_delete_eq.
  rewrite (sum_list_perm _ _
             (fmap_Permutation units _ _
                (fmap_Permutation snd _ _
                   (map_to_list_insert _ _ _ (lookup_delete_eq acc _))))).
  destruct (acc !! n) as [c'|] eqn:Hn.
  - rewrite <- (sum_list_perm _ _
                  (fmap_Permutation units _ _
                     (fmap_Permutation snd _ _
                        (map_to_list_delete acc _ _ Hn)))).
    rewrite !fmap_cons. cbn [sum_list_with from_option snd]. unfold id. lia.
  - rewrite delete_id by done.
    rewrite !fmap_cons. cbn [sum_list_with from_option snd]. unfold id. lia.
Qed.

Lemma listed_units_count_name acc t k :
  acc !! Task.name t = report_entry (Task.name t) k ->
  listed_units (count_name acc t)
  = if inherited_name (Task.name t) then listed_units acc
    else S (listed_units acc).
Proof.
  intros Hacc. unfold count_name, inherited_name.
  pose proof (listed_units_insert acc (Task.name t)) as Hins.
  rewrite Hacc in Hins |- *. clear Hacc. unfold report_entry in *.
  destruct (String.eqb (Task.name t) "__proto__");
    destruct (bool_decide (Task.name t ∈ Object_prototype_functions));
    destruct k as [|k]; cbn [orb] in *; try done.
  - specialize (Hins (FunctionText (Task.name t) 1)). simpl in Hins. lia.
  - specialize (Hins (FunctionText (Task.name t) (S (S k)))).
    simpl in Hins. lia.
  - specialize (Hins (Count 1)). simpl in Hins. lia.
  - specialize (Hins (Count (S (S k)))). simpl in Hins. lia.
Qed.

(** The overflow report by name.  A name that no overflow task bears has no
    entry.  A name that [k] overflow tasks bear and that the object of
    counts does not inherit has the entry [k]; the name of a function of
    [Object.prototype], such as "constructor" or "toString", has the text
    of that function followed by [k] digits 1 in place of a count; the name
    "__proto__" has no entry.  The counts of the report add up to the
    number of overflow tasks whose name is not inherited, which is the
    number of all overflow tasks when no item is named so. *)
Theorem overflow_report_counts (r : result) :
  let items := report_items (aggregatedOverflow (Some r)) in
  (forall n, items !! n = report_entry n (count_named n (overflowTasks r)))
  /\ (forall n k,
        inherited_name n = false ->
        (items !! n = Some (Count k)
         <-> k = count_named n (overflowTasks r) /\ (0 < k)%nat))
  /\ items !! "__proto__" = None
  /\ listed_units items
     = length (filter (fun t => inherited_name (Task.name t) = false)
                      (overflowTasks r))
  /\ (Forall (fun t => inherited_name (Task.name t) = false) (overflowTasks r)
      -> listed_units items = length (overflowTasks r)).
Proof.
  simpl.
  assert (listed_units (foldl count_name ∅ (overflowTasks r))
          = length (filter (fun t => inherited_name (Task.name t) = false)
                           (overflowTasks r))) as Hunits.
  { generalize (overflowTasks r). intros l.
    induction l as [|t l IH] using rev_ind.
    - cbn [foldl]. unfold listed_units. by rewrite map_to_list_empty.
    - rewrite foldl_snoc, filter_app, length_app, filter_cons, <- IH.
      rewrite (listed_units_count_name _ t (count_named (Task.name t) l))
        by apply foldl_count_name_lookup.
      destruct (inherited_name (Task.name t)).
      + rewrite decide_False by done. simpl. lia.
      + rewrite decide_True by done. simpl. lia. }
  split; [intros n; apply foldl_count_name_lookup|].
  split; [|split; [|split; [exact Hunits|]]].
  - intros n k Hn. rewrite foldl_count_name_lookup.
    unfold inherited_name in Hn. apply orb_false_iff in Hn as [Hp Hf].
    unfold report_entry. rewrite Hp, Hf.
    destruct (count_named n (overflowTasks r)) as [|c].
    + split; [done|]. intros [-> ?]. lia.
    + split; [intros [= <-]; split; [done|lia]|by intros [-> _]].
  - rewrite foldl_count_name_lookup. unfold report_entry.
    by destruct (count_named _ _).
  - intros Hplain. rewrite Hunits. clear Hunits. f_equal.
    induction Hplain as [|t l Ht _ IH]; [done|].
    by rewrite filter_cons, decide_True, IH.
Qed.

(** * The state handlers *)

(** The settings form does not change the settings it shows.  A text that
    does not start with an integer is ignored; any other replaces the
    stored settings by the updater function itself, after which the views
    read both fields as [undefined]: the budget is the default of 480
    minutes whatever was typed, and every time label is "NaN:NaN AM". *)
Theorem settings_form_loses_the_settings (d : Data.t) (name value : string) :
  (parseInt10 value = NaN -> handleInputChange d name value = d)
  /\ (parseInt10 value <> NaN ->
      let d' := handleInputChange d name value in
      Data.settings d' = SettingsUpdater name (parseInt10 value)
      /\ settings_props (Data.settings d') = Settings.mk JUndefined JUndefined
      /\ totalWorkMinutes (settings_props (Data.settings d')) = of_Z 480
      /\ (forall minutes,
            formatTime minutes
              (Settings.workdayStartHour (settings_props (Data.settings d')))
            = Some "NaN:NaN AM")
      /\ view_scheduleData d'
         = scheduleData (saved_orders <$> Data.schedule d) (Data.items d)
             (Data.machines d) (Settings.mk JUndefined JUndefined)).
Proof.
  unfold handleInputChange. split.
  - by intros ->.
  - intros Hn. destruct (parseInt10 value) as [|sg|q] eqn:Hv; [done|..];
      (split; [done|]; split; [done|]; split; [by vm_compute|];
       split; [|done]; intros minutes; reflexivity).
Qed.

(** A generated schedule is a snapshot of the orders only.  Edits of the
    catalog, the machines or the settings keep the snapshot, and the view
    computes the schedule of the saved orders from the catalog, machines
    and settings as they are now; any change of the orders discards it. *)
Theorem schedule_is_an_order_snapshot (d : Data.t) (now : string)
    (edits : list edit) :
  let d' := foldl apply_edit (handleGenerateSchedule d now) edits in
  Data.schedule d' = Some (mkSaved (Data.orders d) now)
  /\ Data.orders d' = Data.orders d
  /\ view_scheduleData d'
     = scheduleData (Some (Data.orders d)) (Data.items d') (Data.machines d')
         (settings_props (Data.settings d'))
  /\ (forall newOrders,
        view_scheduleData (handleSetOrders d' newOrders) = None).
Proof.
  simpl.
  assert (Data.schedule (foldl apply_edit (handleGenerateSchedule d now) edits)
          = Some (mkSaved (Data.orders d) now)
          /\ Data.orders (foldl apply_edit (handleGenerateSchedule d now) edits)
             = Data.orders d) as [Hs Ho].
  { induction edits as [|e edits IH] using rev_ind; [done|].
    rewrite foldl_snoc. by destruct e. }
  split; [done|]. split; [done|]. split; [|done].
  unfold view_scheduleData. by rewrite Hs.
Qed.

(** * The item form and the item library *)

Lemma filter_absent (l : list string) (n : string) :
  n ∉ l -> filter (fun m => m <> n) l = l.
Proof.
  induction l as [|x l IH]; [done|].
  intros [Hx Hl]%not_elem_of_cons.
  rewrite filter_cons, decide_True by (intros ->; by apply Hx).
  f_equal. by apply IH.
Qed.

(** Toggling a machine flips its membership and nothing else, and keeps the
    list free of repetitions.  Toggling twice restores the list when the
    machine was not allowed; when it was, the machine comes back at the end
    of the list, the last place of the allocator's tie-break. *)
Theorem machine_toggle (l : list string) (n : string) :
  (n ∈ handleMachineToggle l n <-> n ∉ l)
  /\ (forall m, m <> n -> m ∈ handleMachineToggle l n <-> m ∈ l)
  /\ (NoDup l -> NoDup (handleMachineToggle l n))
  /\ (n ∉ l -> handleMachineToggle (handleMachineToggle l n) n = l)
  /\ (n ∈ l ->
      handleMachineToggle (handleMachineToggle l n) n
      = filter (fun m => m <> n) l ++ [n]).
Proof.
  unfold handleMachineToggle.
  assert (n ∉ filter (fun m => m <> n) l) as Hgone.
  { rewrite list_elem_of_filter. by intros [? _]. }
  assert (n ∈ l ++ [n]) as Hthere.
  { apply elem_of_app. right. by apply list_elem_of_singleton. }
  destruct (decide (n ∈ l)) as [Hin|Hin].
  - rewrite (bool_decide_eq_true_2 _ Hin), (bool_decide_eq_false_2 _ Hgone).
    split; [done|]. split; [|split; [|split; [done|done]]].
    + intros m Hm. rewrite list_elem_of_filter. tauto.
    + apply NoDup_filter.
  - rewrite (bool_decide_eq_false_2 _ Hin), (bool_decide_eq_true_2 _ Hthere).
    split; [done|]. split; [|split; [|split; [|done]]].
    + intros m Hm. rewrite elem_of_app, list_elem_of_singleton. tauto.
    + intros Hnd. apply NoDup_app. split; [done|]. split.
      * intros x Hx ->%list_elem_of_singleton. done.
      * apply NoDup_singleton.
    + intros _. rewrite filter_app, (filter_absent l n Hin).
      rewrite filter_cons, decide_False by (intros H; by apply H).
      apply app_nil_r.
Qed.

Lemma find_item_app items items' id :
  find_item (items ++ items') id
  = match find_item items id with
    | Some it => Some it
    | None => find_item items' id
    end.
Proof.
  unfold find_item. induction items as [|it items IH]; simpl; [done|].
  by destruct (String.eqb (Item.id it) id).
Qed.

Lemma Forall_kept {A} (P Q : A -> Prop) `{!forall x, Decision (Q x)}
    (l : list A) :
  Forall P l -> Forall P (filter Q l).
Proof.
  rewrite !Forall_forall. intros Hl x [_ Hx]%list_elem_of_filter. by apply Hl.
Qed.

Lemma find_item_cons it items id :
  find_item (it :: items) id
  = if String.eqb (Item.id it) id then Some it else find_item items id.
Proof. reflexivity. Qed.

Lemma find_item_Some items id it :
  find_item items id = Some it -> it ∈ items /\ Item.id it = id.
Proof.
  unfold find_item. intros [Hin Hid]%List.find_some.
  split; [by apply list_elem_of_In|by apply String.eqb_eq].
Qed.

(** Saving a new item appends it under the id made from the clock: with a
    fresh id the item is found under it and every other lookup is as
    before; with an id already in the catalog (a second save within the
    same millisecond) the older item keeps answering for it. *)
Theorem save_new_item items itemData now :
  let id := "item-" +:+ pretty now in
  let items' := handleSaveItem items None itemData now in
  items' = items ++ [item_with id itemData]
  /\ (forall id', id' <> id -> find_item items' id' = find_item items id')
  /\ ((forall it, it ∈ items -> Item.id it <> id) ->
      find_item items' id = Some (item_with id itemData))
  /\ (forall old, find_item items id = Some old ->
        find_item items' id = Some old).
Proof.
  simpl. split; [done|]. split; [|split].
  - intros id' Hne. rewrite find_item_app.
    destruct (find_item items id'); [done|].
    rewrite find_item_cons.
    destruct (String.eqb _ id') eqn:E; [|done].
    apply String.eqb_eq in E. by destruct Hne.
  - intros Hfresh. rewrite find_item_app, (find_item_None _ _ Hfresh).
    rewrite find_item_cons. cbn [Item.id item_with].
    by rewrite String.eqb_refl.
  - intros old Hold. by rewrite find_item_app, Hold.
Qed.

Lemma find_item_update items e itemData id :
  find_item
    (map (fun i => if String.eqb (Item.id i) e
                   then item_with (Item.id i) itemData else i) items) id
  = if String.eqb id e
    then (fun i => item_with (Item.id i) itemData) <$> find_item items id
    else find_item items id.
Proof.
  unfold find_item. induction items as [|it items IH]; simpl.
  - by destruct (String.eqb id e).
  - destruct (String.eqb (Item.id it) e) eqn:He; simpl.
    + destruct (String.eqb (Item.id it) id) eqn:Hi.
      * apply String.eqb_eq in He, Hi. subst.
        by rewrite String.eqb_refl.
      * exact IH.
    + destruct (String.eqb (Item.id it) id) eqn:Hi; [|exact IH].
      apply String.eqb_eq in Hi. subst. by rewrite He.
Qed.

(** Saving an edited item rewrites the fields of the entry with its id in
    place: the ids of the catalog and their order stay as they were, the
    edited id now answers with the fields of the form, and every other
    lookup is as before. *)
Theorem save_edited_item items editingItem itemData now :
  Item.id editingItem <> "" ->
  let items' := handleSaveItem items (Some editingItem) itemData now in
  Item.id <$> items' = Item.id <$> items
  /\ (forall it, find_item items (Item.id editingItem) = Some it ->
        find_item items' (Item.id editingItem)
        = Some (item_with (Item.id editingItem) itemData))
  /\ (forall id, id <> Item.id editingItem ->
        find_item items' id = find_item items id).
Proof.
  intros Hid. simpl. unfold handleSaveItem.
  assert (String.eqb (Item.id editingItem) "" = false) as ->
    by by apply String.eqb_neq.
  simpl. split; [|split].
  - rewrite <- list_fmap_compose. apply list_fmap_ext.
    intros i it _. simpl. by destruct (String.eqb _ _).
  - intros it Hit. rewrite find_item_update, String.eqb_refl, Hit. simpl.
    apply find_item_Some in Hit as [_ ->]. done.
  - intros id Hne. rewrite find_item_update.
    by apply String.eqb_neq in Hne as ->.
Qed.

(** Opening an item of the catalog in the form and saving it untouched
    passes the validation and leaves the catalog as it was, for an item
    that the form could have made and whose id is its own. *)
Theorem edit_round_trip items it now :
  form_made it -> Item.id it <> "" ->
  (forall i, i ∈ items -> Item.id i = Item.id it -> i = it) ->
  handleSubmit (form_of_item (Some it)) = Some (form_of_item (Some it))
  /\ handleSaveItem items (Some it) (form_of_item (Some it)) now = items.
Proof.
  intros (Hname & Hbt & Hprice & Hcost & l & Hl & Hne) Hid Hown.
  assert (item_with (Item.id it) (form_of_item (Some it)) = it) as Hsame.
  { destruct it as [id name bt price cost am]. simpl in *. subst am.
    unfold item_with, val_or. simpl. by rewrite Hbt, Hprice, Hcost. }
  split.
  - unfold handleSubmit, form_of_item, val_or. simpl.
    rewrite Hbt, Hprice, Hcost, Hl. simpl.
    apply String.eqb_neq in Hname as ->. simpl.
    rewrite Hbt, Hprice, Hcost. simpl. by destruct l.
  - unfold handleSaveItem.
    apply String.eqb_neq in Hid as ->. simpl.
    rewrite <- (map_id items) at 2. apply map_ext_in.
    intros i Hi%list_elem_of_In.
    destruct (String.eqb (Item.id i) (Item.id it)) eqn:E; [|done].
    apply String.eqb_eq in E. rewrite (Hown i Hi E). exact Hsame.
Qed.

Lemma form_made_item_with id itemData :
  handleSubmit itemData = Some itemData -> form_made (item_with id itemData).
Proof.
  unfold handleSubmit, form_made. simpl.
  destruct (String.eqb (FormData.name itemData) "") eqn:Hn; [done|].
  destruct (ToBoolean (FormData.buildTime itemData)); [|done].
  destruct (ToBoolean (FormData.price itemData)); [|done].
  destruct (ToBoolean (FormData.cost itemData)); [|done]. simpl.
  destruct (FormData.allowedMachines itemData) as [|m l] eqn:Hl; [done|].
  intros _. apply String.eqb_neq in Hn.
  repeat split; try done. by exists (m :: l).
Qed.

(** The catalog stays as the form makes it: what the form submits is its
    own data with every field filled in and a machine allowed, and saving
    it or deleting an item keeps every item of the catalog so.  In such a
    catalog every expanded task has a machine it may run on. *)
Theorem catalog_stays_form_made items :
  Forall form_made items ->
  (forall formData itemData editingItem now,
      handleSubmit formData = Some itemData ->
      itemData = formData
      /\ Forall form_made (handleSaveItem items editingItem itemData now))
  /\ (forall itemToDelete,
        Forall form_made (handleDeleteItem items itemToDelete))
  /\ (forall orders t,
        t ∈ allTasks orders items -> Task.allowedMachines t <> []).
Proof.
  intros Hitems. split; [|split].
  - intros fd itemData e now Hsub.
    assert (itemData = fd) as ->.
    { unfold handleSubmit in Hsub.
      destruct (_ || _); [done|]. destruct (_ =? _)%nat; [done|].
      by injection Hsub. }
    split; [done|].
    assert (forall id, form_made (item_with id fd)) as Hnew
      by (intros id; by apply form_made_item_with).
    unfold handleSaveItem.
    assert (Forall form_made (items ++ [item_with ("item-" +:+ pretty now) fd]))
      as Happ by (apply Forall_app; split; [done|by constructor]).
    destruct e as [e|]; [|done].
    destruct (negb _); [|done].
    apply Forall_forall. intros i Hi.
    apply list_elem_of_In, in_map_iff in Hi as (j & <- & Hj%list_elem_of_In).
    destruct (String.eqb _ _); [apply Hnew|].
    rewrite Forall_forall in Hitems. by apply Hitems.
  - intros [id|]; [|done]. unfold handleDeleteItem.
    destruct (String.eqb id ""); [done|]. by apply Forall_kept.
  - intros orders t Ht.
    unfold allTasks in Ht. rewrite list_elem_of_In, in_flat_map in Ht.
    destruct Ht as (order & _ & Ht). apply list_elem_of_In in Ht.
    unfold expand_order in Ht.
    destruct (find_item items (Order.itemId order)) as [it|] eqn:Hf.
    2:{ by apply elem_of_nil in Ht. }
    destruct (_ || _). { by apply elem_of_nil in Ht. }
    apply list_elem_of_fmap in Ht as (i & -> & _). simpl.
    apply find_item_Some in Hf as [Hin _].
    rewrite Forall_forall in Hitems.
    destruct (Hitems it Hin) as (_ & _ & _ & _ & l & -> & Hl). done.
Qed.

Lemma find_item_filter items d id :
  find_item (filter (fun i => Item.id i <> d) items) id
  = if String.eqb id d then None else find_item items id.
Proof.
  unfold find_item. induction items as [|it items IH]; simpl.
  - by destruct (String.eqb id d).
  - rewrite filter_cons.
    destruct (decide (Item.id it <> d)) as [Hne|Heq]; simpl.
    + destruct (String.eqb (Item.id it) id) eqn:E; [|exact IH].
      apply String.eqb_eq in E. subst.
      by apply String.eqb_neq in Hne as ->.
    + apply dec_stable in Heq. rewrite IH.
      destruct (String.eqb id d) eqn:E; [done|].
      apply String.eqb_neq in E.
      assert (String.eqb (Item.id it) id = false) as ->; [|done].
      apply String.eqb_neq. congruence.
Qed.

(** Deleting an item from the catalog takes exactly the units of its orders
    out of the task list: the orders of the deleted item expand to nothing,
    without an error, and every other order expands as before. *)
Theorem delete_item_drops_its_tasks items orders id :
  id <> "" ->
  let items' := handleDeleteItem items (Some id) in
  find_item items' id = None
  /\ (forall order, Order.itemId order = id ->
        expand_order items' order = [])
  /\ (forall order, Order.itemId order <> id ->
        expand_order items' order = expand_order items order)
  /\ allTasks orders items'
     = allTasks (filter (fun o => Order.itemId o <> id) orders) items.
Proof.
  intros Hid. simpl. unfold handleDeleteItem.
  apply String.eqb_neq in Hid as ->.
  assert (forall order, Order.itemId order = id ->
            expand_order (filter (fun i => Item.id i <> id) items) order = [])
    as Hgone.
  { intros order Ho. unfold expand_order.
    by rewrite find_item_filter, Ho, String.eqb_refl. }
  assert (forall order, Order.itemId order <> id ->
            expand_order (filter (fun i => Item.id i <> id) items) order
            = expand_order items order) as Hkept.
  { intros order Ho. unfold expand_order. rewrite find_item_filter.
    by apply String.eqb_neq in Ho as ->. }
  split; [by rewrite find_item_filter, String.eqb_refl|].
  split; [done|]. split; [done|].
  unfold allTasks. induction orders as [|o orders IH]; [done|].
  rewrite filter_cons. simpl. rewrite IH.
  destruct (decide (Order.itemId o <> id)) as [Hne|Heq]; simpl.
  - by rewrite Hkept.
  - apply dec_stable in Heq. by rewrite Hgone.
Qed.

(** * The machine library *)

(** No machine of the pool is without a name: the default pool has none,
    a blank name is not added, and a deletion adds nothing.  A machine is
    added at the end of the pool, under the trimmed name and without a look
    at the names already there. *)
Theorem pool_has_no_empty_name machines :
  Forall (fun m => Machine.name m <> "") (Data.machines default_data)
  /\ (Forall (fun m => Machine.name m <> "") machines ->
      (forall newMachineName now,
          Forall (fun m => Machine.name m <> "")
                 (handleAddMachine machines newMachineName now))
      /\ (forall machineToDelete,
            Forall (fun m => Machine.name m <> "")
                   (handleDeleteMachine machines machineToDelete)))
  /\ (forall newMachineName now,
        trim newMachineName <> "" ->
        handleAddMachine machines newMachineName now
        = machines ++ [Machine.mk ("machine-" +:+ pretty now)
                                  (trim newMachineName)]).
Proof.
  split; [by repeat constructor|]. split.
  - intros Hm. split.
    + intros s now. unfold handleAddMachine.
      destruct (String.eqb (trim s) "") eqn:E; [done|].
      apply String.eqb_neq in E.
      apply Forall_app. split; [done|]. by constructor.
    + intros [id|]; [|done]. unfold handleDeleteMachine.
      destruct (String.eqb id ""); [done|]. by apply Forall_kept.
  - intros s now Hs. unfold handleAddMachine.
    by apply String.eqb_neq in Hs as ->.
Qed.

(** * Whole numbers and the time formatter *)

Section whole_numbers.
Implicit Types a b : Z.

Lemma this_of_Z a : this (Q2Qc (inject_Z a)) = inject_Z a.
Proof. simpl. apply Qred_identity. simpl. apply Z.gcd_1_r. Qed.

Lemma Q2Qc_plus a b :
  Q2Qc (inject_Z (a + b)) = (Q2Qc (inject_Z a) + Q2Qc (inject_Z b))%Qc.
Proof.
  unfold Qcplus. apply Q2Qc_eq_iff. rewrite !this_of_Z.
  rewrite inject_Z_plus. apply Qeq_refl.
Qed.

Lemma Q2Qc_mult a b :
  Q2Qc (inject_Z (a * b)) = (Q2Qc (inject_Z a) * Q2Qc (inject_Z b))%Qc.
Proof.
  unfold Qcmult. apply Q2Qc_eq_iff. rewrite !this_of_Z.
  rewrite inject_Z_mult. apply Qeq_refl.
Qed.

Lemma Q2Qc_opp a : Q2Qc (inject_Z (- a)) = (- Q2Qc (inject_Z a))%Qc.
Proof.
  unfold Qcopp. apply Q2Qc_eq_iff. rewrite !this_of_Z.
  rewrite inject_Z_opp. apply Qeq_refl.
Qed.

Lemma of_Z_inj a b : of_Z a = of_Z b <-> a = b.
Proof.
  split; [|by intros ->]. unfold of_Z. intros [= H].
  rewrite !Qred_identity in H by (simpl; apply Z.gcd_1_r).
  by injection H.
Qed.

Lemma add_of_Z a b : add (of_Z a) (of_Z b) = of_Z (a + b).
Proof. unfold of_Z, add. by rewrite Q2Qc_plus. Qed.

Lemma mul_of_Z a b : mul (of_Z a) (of_Z b) = of_Z (a * b).
Proof. unfold of_Z, mul. by rewrite Q2Qc_mult. Qed.

Lemma cmp_of_Z a b : cmp (of_Z a) (of_Z b) = Some (a ?= b)%Z.
Proof.
  unfold of_Z, cmp, Qccompare. rewrite !this_of_Z.
  unfold Qcompare. simpl. by rewrite !Z.mul_1_r.
Qed.

Lemma ltb_of_Z a b : ltb (of_Z a) (of_Z b) = (a <? b)%Z.
Proof. unfold ltb. rewrite cmp_of_Z. unfold Z.ltb. by destruct (a ?= b)%Z. Qed.

Lemma leb_of_Z a b : leb (of_Z a) (of_Z b) = (a <=? b)%Z.
Proof. unfold leb. rewrite cmp_of_Z. unfold Z.leb. by destruct (a ?= b)%Z. Qed.

Lemma is_zero_of_Z a : is_zero (of_Z a) = (a =? 0)%Z.
Proof.
  unfold is_zero, of_Z, Qc_is_zero.
  destruct (Z.eqb_spec a 0) as [->|Hne].
  - by apply bool_decide_eq_true_2.
  - apply bool_decide_eq_false_2. intros H. apply Hne.
    by apply (of_Z_inj a 0); unfold of_Z; f_equal.
Qed.

Lemma Qc_is_zero_of_Z a : a <> 0%Z -> Qc_is_zero (Q2Qc (inject_Z a)) = false.
Proof.
  intros Hne. pose proof (is_zero_of_Z a) as H.
  apply Z.eqb_neq in Hne. by rewrite Hne in H.
Qed.

Lemma Qfloor_of_Z_div a b :
  Qfloor (Q2Qc (inject_Z a) / Q2Qc (inject_Z b))%Qc = (a / b)%Z.
Proof.
  rewrite Zdiv_Qdiv. apply Qfloor_comp.
  unfold Qcdiv, Qcmult, Qcinv. cbn [this Q2Qc]. rewrite !Qred_correct.
  apply Qeq_refl.
Qed.

Lemma floor_div_of_Z a b :
  b <> 0%Z -> floor (div (of_Z a) (of_Z b)) = of_Z (a / b).
Proof.
  intros Hb. unfold of_Z, div. rewrite (Qc_is_zero_of_Z b Hb).
  unfold floor. by rewrite Qfloor_of_Z_div.
Qed.

Lemma rem_of_Z a b :
  (0 <= a)%Z -> (0 < b)%Z -> rem (of_Z a) (of_Z b) = of_Z (a mod b).
Proof.
  intros Ha Hb. unfold of_Z, rem.
  rewrite (Qc_is_zero_of_Z b) by lia. f_equal.
  assert (truncate (Q2Qc (inject_Z a) / Q2Qc (inject_Z b)) = (a / b)%Z) as ->.
  { unfold truncate, Qc_negative.
    rewrite bool_decide_eq_false_2; [apply Qfloor_of_Z_div|].
    intros Hneg. apply Qclt_not_le in Hneg. apply Hneg.
    unfold Qcle.
    change (inject_Z 0
            <= this (Q2Qc (inject_Z a) / Q2Qc (inject_Z b))%Qc)%Q.
    eapply Qle_trans; [|apply Qfloor_le].
    rewrite Qfloor_of_Z_div. rewrite <- Zle_Qle.
    apply Z.div_pos; lia. }
  rewrite (Z.mod_eq a b) by lia.
  unfold Z.sub. by rewrite Q2Qc_plus, Q2Qc_opp, Q2Qc_mult.
Qed.

Lemma number_to_string_of_Z a :
  (Z.abs a < 10 ^ 21)%Z -> number_to_string (of_Z a) = Some (pretty a).
Proof.
  intros Ha. unfold number_to_string, of_Z. rewrite this_of_Z. simpl.
  by apply Z.ltb_lt in Ha as ->.
Qed.

End whole_numbers.

Lemma formatTime_clock (startHour m : Z) :
  (0 <= 60 * startHour + m)%Z ->
  formatTime (of_Z m) (JNum (of_Z startHour))
  = Some (clock (60 * startHour + m)).
Proof.
  intros Hm. unfold formatTime.
  change (ToNumber (JNum (of_Z startHour))) with (of_Z startHour).
  rewrite mul_of_Z, add_of_Z.
  replace (startHour * 60 + m)%Z with (60 * startHour + m)%Z by lia.
  set (t := (60 * startHour + m)%Z) in *.
  rewrite floor_div_of_Z by done.
  assert (0 <= t / 60)%Z by (apply Z.div_pos; lia).
  rewrite !rem_of_Z by (done || lia).
  pose proof (Z.mod_pos_bound (t / 60) 24 eq_refl) as Hh.
  pose proof (Z.mod_pos_bound t 60 eq_refl) as Hmin.
  rewrite rem_of_Z by lia.
  pose proof (Z.mod_pos_bound ((t / 60) mod 24) 12 eq_refl) as Hh12.
  rewrite is_zero_of_Z, leb_of_Z, ltb_of_Z. unfold clock. fold t.
  destruct ((((t / 60) mod 24) mod 12 =? 0)%Z);
    by rewrite !number_to_string_of_Z by (simpl; lia).
Qed.

(** For a whole start hour and a whole number of minutes that do not fall
    before midnight, the label is the reading of a 12-hour clock: the hour
    from 1 to 12, the minute in two digits, and "PM" from noon on.  The
    label has no day: 24 hours later it is the same. *)
Theorem formatTime_reads_the_clock (minutes startHour : Z) :
  (0 <= 60 * startHour + minutes)%Z ->
  formatTime (of_Z minutes) (JNum (of_Z startHour))
  = Some (clock (60 * startHour + minutes))
  /\ formatTime (of_Z (minutes + 1440)) (JNum (of_Z startHour))
     = formatTime (of_Z minutes) (JNum (of_Z startHour)).
Proof.
  pose proof (formatTime_clock startHour) as Hclock.
  intros Ht. split; [by apply Hclock|].
  rewrite !Hclock by lia. f_equal. unfold clock.
  replace (60 * startHour + (minutes + 1440))%Z
    with (60 * startHour + minutes + 24 * 60)%Z by lia.
  set (t := (60 * startHour + minutes)%Z).
  replace ((t + 24 * 60) / 60)%Z with (t / 60 + 24)%Z
    by (rewrite Z.div_add by done; lia).
  replace ((t / 60 + 24) mod 24)%Z with ((t / 60) mod 24)%Z
    by (rewrite <- (Z.mod_add (t / 60) 1 24) by done; f_equal; lia).
  replace ((t + 24 * 60) mod 60)%Z with (t mod 60)%Z
    by (rewrite Z.mod_add by done; done).
  done.
Qed.

Lemma contiguous_whole ps : forall a e,
  (0 <= a)%Z -> contiguous (of_Z a) ps e ->
  Forall (fun p => whole_minutes (Task.buildTime (placed_task p))) ps ->
  Forall (fun p => exists x y : Z,
            (0 <= x <= y)%Z /\ startTime p = of_Z x /\ endTime p = of_Z y) ps.
Proof.
  induction ps as [|p ps IH]; intros a e Ha Hc Hw; [constructor|].
  destruct Hc as (Hs & He & Hrest).
  apply Forall_cons in Hw as [(n & Hn & Hbt) Hw].
  rewrite Hs, Hbt, add_of_Z in He.
  constructor.
  - exists a, (a + n)%Z. split; [lia|]. done.
  - rewrite He in Hrest. apply (IH (a + n)%Z e); [lia|done|done].
Qed.

(** With build times that are whole minutes and a whole start hour, every
    task on a timeline starts and ends a whole number of minutes into the
    workday, and both of its time labels are the clock readings of those
    minutes. *)
Theorem schedule_labels_read_the_clock orders items machines settings r
    (startHour : Z) :
  scheduleData (Some orders) items machines settings = Some r ->
  (forall it, it ∈ items -> whole_minutes (parseFloat (Item.buildTime it))) ->
  Settings.workdayStartHour settings = JNum (of_Z startHour) ->
  (0 <= startHour)%Z ->
  forall m tl p, schedule r !! m = Some tl -> p ∈ tasks tl ->
    exists x y : Z,
      (0 <= x <= y)%Z
      /\ startTime p = of_Z x /\ endTime p = of_Z y
      /\ formatTime (startTime p) (Settings.workdayStartHour settings)
         = Some (clock (60 * startHour + x))
      /\ formatTime (endTime p) (Settings.workdayStartHour settings)
         = Some (clock (60 * startHour + y)).
Proof.
  intros ->%scheduleData_Some Hitems -> Hs m tl p Hm Hp.
  destruct (allocate_timelines _ _ (init_timelines_empty machines) _ _ _ Hm)
    as [Hc _].
  destruct (allocate_sublist (totalWorkMinutes settings)
              (init_timelines machines) (ranked (allTasks orders items))
              (init_timelines_empty machines)) as [Hsub _].
  assert (Forall (fun p => whole_minutes (Task.buildTime (placed_task p)))
                 (tasks tl)) as Hw.
  { apply Forall_forall. intros q Hq.
    assert (placed_task q ∈ ranked (allTasks orders items)) as Hin.
    { eapply sublist_subseteq; [apply (Hsub m tl Hm)|].
      apply list_elem_of_fmap. by exists q. }
    rewrite ranked_perm in Hin.
    destruct (allTasks_build_time _ _ _ Hin) as (it & Hit & -> & _).
    by apply Hitems. }
  pose proof (contiguous_whole (tasks tl) 0 (currentTime tl) (Z.le_refl 0)
                Hc Hw) as Hall.
  rewrite Forall_forall in Hall.
  destruct (Hall p Hp) as (x & y & Hxy & Hx & Hy).
  exists x, y. split; [done|]. split; [done|]. split; [done|].
  rewrite Hx, Hy.
  split; apply formatTime_clock; lia.
Qed.

(** * Machines of the same name *)

Lemma scheduleData_names orders items machines machines' settings :
  (forall n, n ∈ machine_names machines <-> n ∈ machine_names machines') ->
  scheduleData orders items machines settings
  = scheduleData orders items machines' settings.
Proof.
  intros Hn. unfold scheduleData. destruct orders as [orders|]; [|done].
  rewrite (init_timelines_names _ _ Hn).
  assert ((length machines =? 0)%nat = (length machines' =? 0)%nat) as ->;
    [|done].
  destruct machines as [|m ms], machines' as [|m' ms']; try done.
  - assert (Machine.name m' ∈ machine_names []) as H
      by (apply Hn; apply list_elem_of_here).
    by apply elem_of_nil in H.
  - assert (Machine.name m ∈ machine_names []) as H
      by (apply Hn; apply list_elem_of_here).
    by apply elem_of_nil in H.
Qed.

(** The scheduler knows a machine by its name only.  A machine added under
    a name that the pool already has adds no timeline and no capacity, and
    deleting a machine whose name another machine carries takes none away:
    the schedule is the same as before. *)
Theorem same_name_machines_share_a_timeline orders items machines settings :
  (forall newMachineName now,
      trim newMachineName ∈ machine_names machines ->
      scheduleData orders items
        (handleAddMachine machines newMachineName now) settings
      = scheduleData orders items machines settings)
  /\ (forall id,
        (forall m, m ∈ machines -> Machine.id m = id ->
           exists m', m' ∈ machines /\ Machine.id m' <> id
                      /\ Machine.name m' = Machine.name m) ->
        scheduleData orders items
          (handleDeleteMachine machines (Some id)) settings
        = scheduleData orders items machines settings).
Proof.
  split.
  - intros s now Hin. apply scheduleData_names. intros n.
    unfold handleAddMachine. destruct (String.eqb (trim s) ""); [done|].
    unfold machine_names. rewrite fmap_app, elem_of_app. simpl.
    rewrite list_elem_of_singleton. split; [|by left].
    intros [?| ->]; done.
  - intros id Hother. apply scheduleData_names. intros n.
    unfold handleDeleteMachine. destruct (String.eqb id ""); [done|].
    unfold machine_names. rewrite !list_elem_of_fmap. split.
    + intros (m & -> & [_ Hm]%list_elem_of_filter). by exists m.
    + intros (m & -> & Hm).
      destruct (decide (Machine.id m = id)) as [Hid|Hid].
      * destruct (Hother m Hm Hid) as (m' & Hm' & Hid' & Hname).
        exists m'. split; [done|]. by apply list_elem_of_filter.
      * exists m. split; [done|]. by apply list_elem_of_filter.
Qed.

(** * The further properties on the sample data *)

Lemma sample_items_numeric it :
  it ∈ sample_items ->
  ToNumber (Item.buildTime it) = parseFloat (Item.buildTime it).
Proof.
  revert it. apply Forall_forall. unfold sample_items.
  repeat constructor; vm_compute; reflexivity.
Qed.

Lemma sample_timeline_B :
  schedule sample_result !! "B" = Some (sample_timeline "B").
Proof. vm_compute. reflexivity. Qed.

Lemma only_on_allowed_machines_witness :
  tasks (sample_timeline "B") <> []
  /\ Forall (fun p => "B" ∈ Task.allowedMachines (placed_task p)
                      /\ "B" ∈ machine_names machinesAB)
            (tasks (sample_timeline "B")).
Proof.
  split; [vm_compute; discriminate|].
  destruct (only_on_allowed_machines sample_orders sample_items machinesAB
              (settings_hours 8) sample_result sample_scheduleData) as [H _].
  apply Forall_forall. intros p Hp.
  apply (H "B" (sample_timeline "B") p); [exact sample_timeline_B|exact Hp].
Defined.

Lemma timelines_follow_the_ranking_witness :
  (placed_task <$> tasks (sample_timeline "B"))
    `sublist_of` ranked (allTasks sample_orders sample_items)
  /\ StronglySorted (descending Task.profitPerMinute)
                    (placed_task <$> tasks (sample_timeline "B")).
Proof.
  destruct (timelines_follow_the_ranking sample_orders sample_items machinesAB
              (settings_hours 8) sample_result sample_scheduleData)
    as (Hs & _ & Hsorted).
  split.
  - apply (Hs "B"). exact sample_timeline_B.
  - apply Hsorted with (m := "B"); [|exact sample_timeline_B].
    vm_compute. repeat constructor; discriminate.
Defined.

Lemma overflow_tasks_do_not_fit_witness :
  let t := unit_task (widget (JStr "10") (JStr "4"))
                     (Order.mk "order-1" "item-1" "Widget" 8) 7 in
  t ∈ overflowTasks sample_result
  /\ leb (add (currentTime (sample_timeline "B")) (Task.buildTime t))
         (totalWorkMinutes (settings_hours 8)) = false.
Proof.
  intros t.
  assert (t ∈ overflowTasks sample_result) as Ht
    by (vm_compute; apply list_elem_of_here).
  split; [exact Ht|].
  apply (overflow_tasks_do_not_fit sample_orders sample_items machinesAB
           (settings_hours 8) sample_result sample_scheduleData
           sample_items_numeric) with (m := "B").
  - vm_compute. intros H. inversion H as [|? ? ? H']; subst.
    inversion H' as [|? ? ? H'']; subst. inversion H''.
  - vm_compute. discriminate.
  - exact Ht.
  - vm_compute. apply list_elem_of_further, list_elem_of_here.
  - exact sample_timeline_B.
Defined.

Lemma busy_time_is_currentTime_witness :
  currentTime (sample_timeline "B") = busy_time (tasks (sample_timeline "B"))
  /\ leb (busy_time (tasks (sample_timeline "B")))
         (totalWorkMinutes (settings_hours 8)) = true.
Proof.
  destruct (busy_time_is_currentTime sample_orders sample_items machinesAB
              (settings_hours 8) sample_result "B" (sample_timeline "B")
              sample_scheduleData sample_timeline_B) as [Hbusy Hle].
  split; [exact Hbusy|]. apply Hle. vm_compute. discriminate.
Defined.

Lemma long_tasks_overflow_witness :
  let r := allocate (totalWorkMinutes (settings_hours (-1)))
                    (init_timelines machinesAB)
                    (ranked (allTasks sample_orders sample_items)) in
  overflowTasks r = ranked (allTasks sample_orders sample_items)
  /\ totalProfit r = zero.
Proof.
  intros r.
  destruct (long_tasks_overflow sample_orders sample_items machinesAB
              (settings_hours (-1)) r) as [_ Hnone].
  - vm_compute. reflexivity.
  - exact sample_items_numeric.
  - destruct Hnone as (_ & Hover & Hprofit); [vm_compute; reflexivity|].
    split; [exact Hover|exact Hprofit].
Defined.

Lemma settings_form_loses_the_settings_witness :
  handleInputChange default_data "workHours" "ten" = default_data
  /\ totalWorkMinutes
       (settings_props
          (Data.settings (handleInputChange default_data "workHours" "10")))
     = of_Z 480.
Proof.
  split.
  - apply (settings_form_loses_the_settings default_data "workHours" "ten").
    vm_compute. reflexivity.
  - pose proof (proj2 (settings_form_loses_the_settings
                         default_data "workHours" "10")) as H.
    cbv zeta in H. destruct H as (_ & _ & Hbudget & _).
    + vm_compute. discriminate.
    + exact Hbudget.
Defined.

Lemma machine_toggle_witness :
  NoDup (handleMachineToggle ["A"; "B"] "A")
  /\ handleMachineToggle (handleMachineToggle ["A"; "B"] "A") "A"
     = filter (fun m => m <> "A") ["A"; "B"] ++ ["A"].
Proof.
  destruct (machine_toggle ["A"; "B"] "A") as (_ & _ & Hnd & _ & Hback).
  split.
  - apply Hnd. compute_done.
  - apply Hback. apply list_elem_of_here.
Defined.

Lemma save_new_item_witness :
  find_item (handleSaveItem sample_items None (form_of_item (Some gadget)) 42)
            ("item-" +:+ pretty 42%nat)
  = Some (item_with ("item-" +:+ pretty 42%nat) (form_of_item (Some gadget))).
Proof.
  pose proof (save_new_item sample_items (form_of_item (Some gadget)) 42) as H.
  cbv zeta in H. destruct H as (_ & _ & Hfresh & _).
  apply Hfresh. apply Forall_forall. unfold sample_items.
  repeat constructor; vm_compute; discriminate.
Defined.

Lemma save_edited_item_witness :
  Item.id <$> handleSaveItem sample_items (Some gadget)
                (FormData.mk "Gadget" (JStr "60") (JStr "20") (JStr "5") ["A"])
                42
  = Item.id <$> sample_items.
Proof.
  pose proof (save_edited_item sample_items gadget
                (FormData.mk "Gadget" (JStr "60") (JStr "20") (JStr "5") ["A"])
                42) as H.
  cbv zeta in H. destruct H as (Hids & _).
  - vm_compute. discriminate.
  - exact Hids.
Defined.

Lemma gadget_form_made : form_made gadget.
Proof.
  split; [vm_compute; discriminate|].
  repeat (split; [vm_compute; reflexivity|]).
  exists ["B"]. split; [reflexivity|discriminate].
Qed.

Lemma edit_round_trip_witness :
  handleSubmit (form_of_item (Some gadget)) = Some (form_of_item (Some gadget))
  /\ handleSaveItem sample_items (Some gadget) (form_of_item (Some gadget)) 42
     = sample_items.
Proof.
  apply (edit_round_trip sample_items gadget 42).
  - exact gadget_form_made.
  - vm_compute. discriminate.
  - apply (proj1 (Forall_forall
                    (fun i => Item.id i = Item.id gadget -> i = gadget)
                    sample_items)).
    unfold sample_items.
    repeat constructor; vm_compute; intros H;
      first [reflexivity|discriminate H].
Defined.

Lemma catalog_stays_form_made_witness :
  Forall (fun t => Task.allowedMachines t <> [])
         (allTasks sample_orders sample_items).
Proof.
  destruct (catalog_stays_form_made sample_items) as (_ & _ & Htasks).
  - unfold sample_items.
    constructor; [|constructor; [exact gadget_form_made|constructor]].
    split; [vm_compute; discriminate|].
    repeat (split; [vm_compute; reflexivity|]).
    exists ["A"; "B"]. split; [reflexivity|discriminate].
  - apply Forall_forall. intros t Ht. by apply (Htasks sample_orders).
Defined.

Lemma delete_item_drops_its_tasks_witness :
  allTasks sample_orders (handleDeleteItem sample_items (Some "item-1"))
  = allTasks (filter (fun o => Order.itemId o <> "item-1") sample_orders)
             sample_items.
Proof.
  pose proof (delete_item_drops_its_tasks sample_items sample_orders "item-1")
    as H.
  cbv zeta in H. destruct H as (_ & _ & _ & Hall).
  - discriminate.
  - exact Hall.
Defined.

Lemma pool_has_no_empty_name_witness :
  Forall (fun m => Machine.name m <> "") (handleAddMachine machinesAB " C " 42).
Proof.
  destruct (pool_has_no_empty_name machinesAB) as (_ & Hkept & _).
  destruct Hkept as [Hadd _].
  - unfold machinesAB. repeat constructor; discriminate.
  - apply Hadd.
Defined.

Lemma formatTime_reads_the_clock_witness :
  formatTime (of_Z 150) (JNum (of_Z 9)) = Some (clock (60 * 9 + 150))
  /\ formatTime (of_Z (150 + 1440)) (JNum (of_Z 9))
     = formatTime (of_Z 150) (JNum (of_Z 9)).
Proof. apply (formatTime_reads_the_clock 150 9). lia. Defined.

Lemma schedule_labels_read_the_clock_witness :
  Forall (fun p => exists x y : Z,
            (0 <= x <= y)%Z
            /\ startTime p = of_Z x /\ endTime p = of_Z y
            /\ formatTime (startTime p)
                 (Settings.workdayStartHour (settings_hours 8))
               = Some (clock (60 * 9 + x))
            /\ formatTime (endTime p)
                 (Settings.workdayStartHour (settings_hours 8))
               = Some (clock (60 * 9 + y)))
         (tasks (sample_timeline "B")).
Proof.
  apply Forall_forall. intros p Hp.
  apply (schedule_labels_read_the_clock sample_orders sample_items machinesAB
           (settings_hours 8) sample_result 9 sample_scheduleData)
    with (m := "B") (tl := sample_timeline "B").
  - apply Forall_forall. unfold sample_items. repeat constructor.
    + exists 100%Z. split; [lia|vm_compute; reflexivity].
    + exists 50%Z. split; [lia|vm_compute; reflexivity].
  - reflexivity.
  - lia.
  - exact sample_timeline_B.
  - exact Hp.
Defined.

Lemma same_name_machines_share_a_timeline_witness :
  scheduleData (Some sample_orders) sample_items
    (handleAddMachine machinesAB " A " 42) (settings_hours 8)
  = scheduleData (Some sample_orders) sample_items machinesAB
      (settings_hours 8).
Proof.
  destruct (same_name_machines_share_a_timeline (Some sample_orders)
              sample_items machinesAB (settings_hours 8)) as [Hadd _].
  apply Hadd. vm_compute. apply list_elem_of_here.
Defined.
